(** * speed: metric types, units, descriptors and value containers

    A shallow embedding of [metrics.go] (metric types, units, descriptors,
    singleton and instance metrics, counters) and of the instance-domain
    registry ([InstanceDomain], [NewInstanceDomain], [AddInstance]), with
    the properties the specification states about them.

    Conventions.
    - Go's [int] and [uint] are the 64-bit ones (the code itself converts an
      [int] with [int64(val)] before range-checking it).  Every integer is a
      [Z]; conversions between widths are written out as wrap-arounds.
    - [float32] and [float64] values are IEEE-754 data ([spec_float]) in the
      binary32 and binary64 formats.
    - An [interface{}] is a value tagged with its dynamic type.
    - Strings are byte strings, so [String.length] is Go's [len]. *)

From Stdlib Require Import ZArith Bool Lia.
From Stdlib Require Import SpecFloat.
From stdpp Require Import gmap strings list.

#[local] Set Warnings "-clear-no-such-hyp".

Local Open Scope Z_scope.

(* ===================================================================== *)
(** * Machine integers and floats *)
(* ===================================================================== *)

(** [uintN(z)]: conversion to an unsigned [w]-bit integer. *)
Definition to_uint (w z : Z) : Z := z mod 2 ^ w.

(** [intN(z)]: conversion to a signed [w]-bit integer (two's complement). *)
Definition to_int (w z : Z) : Z := (z + 2 ^ (w - 1)) mod 2 ^ w - 2 ^ (w - 1).

Definition in_uint (w z : Z) : Prop := 0 <= z < 2 ^ w.
Definition in_int (w z : Z) : Prop := - 2 ^ (w - 1) <= z < 2 ^ (w - 1).

Definition MinInt32 : Z := - 2 ^ 31.
Definition MaxInt32 : Z := 2 ^ 31 - 1.
Definition MinInt64 : Z := - 2 ^ 63.
Definition MaxInt64 : Z := 2 ^ 63 - 1.
Definition MaxUint32 : Z := 2 ^ 32 - 1.
Definition MaxUint64 : Z := 2 ^ 64 - 1.

(** [math.MaxFloat32] = (2^24 - 1) * 2^104, written as a binary64 datum
    (53-bit mantissa). *)
Definition MaxFloat32 : spec_float :=
  S754_finite false (Z.to_pos ((2 ^ 24 - 1) * 2 ^ 29)) 75.

Definition is_float32 (f : spec_float) : Prop := valid_binary 24 128 f = true.
Definition is_float64 (f : spec_float) : Prop := valid_binary 53 1024 f = true.

(** [float32(f)] for a [float64] [f]: round to nearest, ties to even. *)
Definition to_float32 (f : spec_float) : spec_float :=
  match f with
  | S754_finite s m e => binary_round 24 128 s m e
  | _ => f
  end.

Definition is_nan (f : spec_float) : bool :=
  match f with S754_nan => true | _ => false end.

(* ===================================================================== *)
(** * Dynamic values *)
(* ===================================================================== *)

(** The dynamic content of an [interface{}].  The first nine constructors
    are the cases of the type switch in [IsCompatible]; [VNil] and [VBool]
    stand for the values the switch does not list. *)
Inductive value : Type :=
  | VInt (z : Z)
  | VInt32 (z : Z)
  | VInt64 (z : Z)
  | VUint (z : Z)
  | VUint32 (z : Z)
  | VUint64 (z : Z)
  | VFloat32 (f : spec_float)
  | VFloat64 (f : spec_float)
  | VString (s : string)
  | VNil
  | VBool (b : bool).

(** A value is well formed when its payload fits its dynamic type. *)
Definition wf_value (v : value) : Prop :=
  match v with
  | VInt z | VInt64 z => in_int 64 z
  | VInt32 z => in_int 32 z
  | VUint z | VUint64 z => in_uint 64 z
  | VUint32 z => in_uint 32 z
  | VFloat32 f => is_float32 f
  | VFloat64 f => is_float64 f
  | VString _ | VNil | VBool _ => True
  end.

(** The input kinds the type switch of [IsCompatible] lists. *)
Definition supported (v : value) : bool :=
  match v with
  | VNil | VBool _ => false
  | _ => true
  end.

(** Go's [==] on two interface values: identical dynamic types and equal
    contents.  Floats compare as IEEE data: a NaN differs from everything,
    itself included, and the two zeros are equal. *)
Definition iface_eqb (a b : value) : bool :=
  match a, b with
  | VInt x, VInt y | VInt32 x, VInt32 y | VInt64 x, VInt64 y
  | VUint x, VUint y | VUint32 x, VUint32 y | VUint64 x, VUint64 y => x =? y
  | VFloat32 x, VFloat32 y | VFloat64 x, VFloat64 y => SFeqb x y
  | VString x, VString y => String.eqb x y
  | VNil, VNil => true
  | VBool x, VBool y => Bool.eqb x y
  | _, _ => false
  end.

Definition value_is_nan (v : value) : bool :=
  match v with
  | VFloat32 f | VFloat64 f => is_nan f
  | _ => false
  end.

(* ===================================================================== *)
(** * MetricType: compatibility and resolution *)
(* ===================================================================== *)

Inductive MetricType : Type :=
  | Int32Type
  | Uint32Type
  | Int64Type
  | Uint64Type
  | FloatType
  | DoubleType
  | StringType.

#[global] Instance MetricType_eq_dec : EqDecision MetricType.
Proof. solve_decision. Defined.

Definition isCompatibleInt (m : MetricType) (val : Z) : bool :=
  let v := to_int 64 val in
  match m with
  | Int32Type => (MinInt32 <=? v) && (v <=? MaxInt32)
  | Int64Type => (MinInt64 <=? v) && (v <=? MaxInt64)
  | Uint32Type => (0 <=? v) && (v <=? MaxUint32)
  | Uint64Type => (0 <=? v) && (to_uint 64 v <=? MaxUint64)
  | _ => false
  end.

Definition isCompatibleUint (m : MetricType) (val : Z) : bool :=
  if val <=? MaxUint32
  then bool_decide (m = Uint32Type) || bool_decide (m = Uint64Type)
  else bool_decide (m = Uint64Type).

Definition isCompatibleFloat (m : MetricType) (val : spec_float) : bool :=
  if SFleb (SFopp MaxFloat32) val && SFleb val MaxFloat32
  then bool_decide (m = FloatType) || bool_decide (m = DoubleType)
  else bool_decide (m = DoubleType).

Definition IsCompatible (m : MetricType) (val : value) : bool :=
  match val with
  | VInt v => isCompatibleInt m v
  | VInt32 _ => bool_decide (m = Int32Type)
  | VInt64 _ => bool_decide (m = Int64Type)
  | VUint v => isCompatibleUint m v
  | VUint32 _ => bool_decide (m = Uint32Type)
  | VUint64 _ => bool_decide (m = Uint64Type)
  | VFloat32 _ => bool_decide (m = FloatType)
  | VFloat64 v => isCompatibleFloat m v
  | VString _ => bool_decide (m = StringType)
  | _ => false
  end.

Definition resolveInt (m : MetricType) (val : value) : value :=
  match val with
  | VInt vi =>
      match m with
      | Int64Type => VInt64 (to_int 64 vi)
      | Uint32Type => VUint32 (to_uint 32 vi)
      | Uint64Type => VUint64 (to_uint 64 vi)
      | _ => VInt32 (to_int 32 vi)
      end
  | VUint vui =>
      if bool_decide (m = Uint64Type)
      then VUint64 (to_uint 64 vui)
      else VUint32 (to_uint 32 vui)
  | _ => val
  end.

Definition resolveFloat (m : MetricType) (val : value) : value :=
  match val with
  | VFloat64 f =>
      if bool_decide (m = FloatType) then VFloat32 (to_float32 f) else val
  | _ => val
  end.

Definition resolve (m : MetricType) (val : value) : value :=
  let val := resolveInt m val in
  let val := resolveFloat m val in
  val.

(* ===================================================================== *)
(** * Units *)
(* ===================================================================== *)

(** The [MetricUnit] interface: a 32-bit PMAPI representation. *)
Class MetricUnitOps (U : Type) := PMAPI : U → Z.

Inductive SpaceUnit : Type :=
  | ByteUnit | KilobyteUnit | MegabyteUnit | GigabyteUnit
  | TerabyteUnit | PetabyteUnit | ExabyteUnit.

Inductive TimeUnit : Type :=
  | NanosecondUnit | MicrosecondUnit | MillisecondUnit
  | SecondUnit | MinuteUnit | HourUnit.

Inductive CountUnit : Type :=
  | OneUnit.

(** The value of [iota] on the line of the [const] block that declares the
    unit: its ordinal position in the family. *)
Definition SpaceUnit_iota (s : SpaceUnit) : Z :=
  match s with
  | ByteUnit => 0 | KilobyteUnit => 1 | MegabyteUnit => 2 | GigabyteUnit => 3
  | TerabyteUnit => 4 | PetabyteUnit => 5 | ExabyteUnit => 6
  end.

Definition TimeUnit_iota (t : TimeUnit) : Z :=
  match t with
  | NanosecondUnit => 0 | MicrosecondUnit => 1 | MillisecondUnit => 2
  | SecondUnit => 3 | MinuteUnit => 4 | HourUnit => 5
  end.

Definition CountUnit_iota (c : CountUnit) : Z :=
  match c with OneUnit => 0 end.

(** [1<<28 | iota<<16], [1<<24 | iota<<12] and [1<<20 | iota<<8]: the
    constant expressions of the three blocks ([<<] binds tighter than [|]). *)
Definition SpaceUnit_const (s : SpaceUnit) : Z :=
  Z.lor (Z.shiftl 1 28) (Z.shiftl (SpaceUnit_iota s) 16).

Definition TimeUnit_const (t : TimeUnit) : Z :=
  Z.lor (Z.shiftl 1 24) (Z.shiftl (TimeUnit_iota t) 12).

Definition CountUnit_const (c : CountUnit) : Z :=
  Z.lor (Z.shiftl 1 20) (Z.shiftl (CountUnit_iota c) 8).

#[global] Instance SpaceUnit_PMAPI : MetricUnitOps SpaceUnit :=
  fun s => to_uint 32 (SpaceUnit_const s).
#[global] Instance TimeUnit_PMAPI : MetricUnitOps TimeUnit :=
  fun t => to_uint 32 (TimeUnit_const t).
#[global] Instance CountUnit_PMAPI : MetricUnitOps CountUnit :=
  fun c => to_uint 32 (CountUnit_const c).

(** A value of the interface type [MetricUnit]: a unit of one of the three
    families. *)
Inductive MetricUnit : Type :=
  | USpace (s : SpaceUnit)
  | UTime (t : TimeUnit)
  | UCount (c : CountUnit).

#[global] Instance MetricUnit_PMAPI : MetricUnitOps MetricUnit :=
  fun u =>
    match u with
    | USpace s => PMAPI s
    | UTime t => PMAPI t
    | UCount c => PMAPI c
    end.

Inductive MetricSemantics : Type :=
  | NoSemantics
  | CounterSemantics
  | InstantSemantics
  | DiscreteSemantics.

(** The numeric values of the semantics constants: the block skips 2. *)
Definition MetricSemantics_const (s : MetricSemantics) : Z :=
  match s with
  | NoSemantics => 0
  | CounterSemantics => 1
  | InstantSemantics => 3
  | DiscreteSemantics => 4
  end.

(* ===================================================================== *)
(** * Errors, panics and what the other files of the package provide *)
(* ===================================================================== *)

(** The error values the code builds, named by their kind.
    - [EmptyName]: "Metric name cannot be empty"
    - [NameTooLong]: "metric name is too long"
    - [TooManyDescriptions]: "only 2 optional strings allowed, ..."
    - [IncompatibleType]: "the value is incompatible with this metrics
      MetricType", "type %v is not compatible with value %v", "value %v is
      incompatible with type %v for Instance %v"
    - [InstanceCountMismatch]: "values for all instances in the instance
      domain only should be passed"
    - [MissingInstanceValue n]: "Instance n not initialized"
    - [UnknownInstance n]: "n is not an instance of this metric"
    - [DuplicateInstance]: "Instance with same name already created ..."
    - [WriterError]: whatever error the byte writer hands back. *)
Inductive error : Type :=
  | EmptyName
  | NameTooLong
  | TooManyDescriptions
  | IncompatibleType
  | InstanceCountMismatch
  | MissingInstanceValue (instance : string)
  | UnknownInstance (instance : string)
  | DuplicateInstance
  | WriterError (msg : string).

#[global] Instance error_eq_dec : EqDecision error.
Proof. solve_decision. Defined.

(** A call either returns or panics. *)
Inductive outcome (A : Type) : Type :=
  | Ret (a : A)
  | Panic (reason : string).
Arguments Ret {A} a.
Arguments Panic {A} reason.

Definition returned {A} (o : outcome A) : bool :=
  match o with Ret _ => true | Panic _ => false end.

(** Constants and helpers that [metrics.go] and the instance-domain
    registry use and other files of the package declare: the length of a string block of
    the mapped format, and the stable 32-bit string hash under the
    identifier hasher. *)
Class Env : Type := {
  StringLength : Z;
  hash32 : string → Z
}.

(** Modelled from the spec: the identifier hasher [hash], whose file is not
    among the sources.  "[hash(name, bitWidth?) -> uint32]. Pure,
    deterministic [...]. When [bitWidth] is supplied, the result is
    masked/reduced into [[0, 2^bitWidth)]." *)
Definition hash `{Env} (name : string) (bitWidth : option Z) : Z :=
  let h := to_uint 32 (hash32 name) in
  match bitWidth with
  | Some b => Z.land h (Z.ones b)
  | None => h
  end.

(* ===================================================================== *)
(** * Metric descriptors *)
(* ===================================================================== *)

Definition PCPMetricItemBitLength : Z := 10.

Record PCPMetricDesc : Type := {
  md_id : Z;
  md_name : string;
  md_t : MetricType;
  md_sem : MetricSemantics;
  md_u : MetricUnit;
  md_shortDescription : string;
  md_longDescription : string
}.

(** Go's [len] of a string and of a slice, as an [int]. *)
Definition len_string (s : string) : Z := Z.of_nat (String.length s).
Definition len_slice {A} (l : list A) : Z := Z.of_nat (length l).

Definition newPCPMetricDesc `{Env} (n : string) (t : MetricType)
    (s : MetricSemantics) (u : MetricUnit) (desc : list string)
    : error + PCPMetricDesc :=
  if String.eqb n "" then inl EmptyName
  else if len_string n >? StringLength then inl NameTooLong
  else if len_slice desc >? 2 then inl TooManyDescriptions
  else
    let shortdesc := if len_slice desc >? 0 then nth 0 desc ""%string else ""%string in
    let longdesc := if len_slice desc >? 1 then nth 1 desc ""%string else ""%string in
    inr {| md_id := hash n (Some PCPMetricItemBitLength);
           md_name := n; md_t := t; md_sem := s; md_u := u;
           md_shortDescription := shortdesc;
           md_longDescription := longdesc |}.

Definition ID (md : PCPMetricDesc) : Z := md_id md.
Definition Name (md : PCPMetricDesc) : string := md_name md.
Definition Semantics (md : PCPMetricDesc) : MetricSemantics := md_sem md.
Definition Unit (md : PCPMetricDesc) : MetricUnit := md_u md.
Definition MetricDesc_Type (md : PCPMetricDesc) : MetricType := md_t md.
Definition ShortDescription (md : PCPMetricDesc) : string := md_shortDescription md.
Definition LongDescription (md : PCPMetricDesc) : string := md_longDescription md.
Definition newline : string := String (Ascii.ascii_of_nat 10) EmptyString.
Definition Description (md : PCPMetricDesc) : string :=
  (md_shortDescription md ++ newline ++ md_longDescription md)%string.

(* ===================================================================== *)
(** * Value containers *)
(* ===================================================================== *)

(** The byte writer of package [bytewriter], an external collaborator. *)
Class Writer (W : Type) : Type := {
  MustWrite : list Z → Z → W → W;
  WriteVal : value → Z → W → (Z * option error) * W
}.

Section Containers.
(** [W] is the state of the mapped region the update hooks write to. *)
Context {W : Type}.

(** An update hook: called with the new value, it changes the region and
    may fail. *)
Definition updateClosure : Type := value → W → option error * W.

Definition newupdateClosure `{Env} `{!Writer W} (offset : Z) : updateClosure :=
  fun val w =>
    let w :=
      match val with
      | VString _ => MustWrite (replicate (Z.to_nat StringLength) 0) offset w
      | _ => w
      end in
    let '((_, err), w) := WriteVal val offset w in
    (err, w).

(** ** The store a method call runs in

    A method call on a metric object [O] runs against the object, the
    mapped region, and a log of the update-hook invocations made so far
    (the value passed and what the hook returned), newest last.  The log
    is instrumentation: no code reads it. *)
Record store (O : Type) : Type := {
  obj : O;
  region : W;
  hook_log : list (value * option error)
}.
Arguments obj {O} _.
Arguments region {O} _.
Arguments hook_log {O} _.

Definition M (O A : Type) : Type := store O → outcome A * store O.

Definition ret {O A} (a : A) : M O A := fun s => (Ret a, s).

Definition bind {O A B} (c : M O A) (k : A → M O B) : M O B :=
  fun s =>
    match c s with
    | (Ret a, s') => k a s'
    | (Panic r, s') => (Panic r, s')
    end.

Definition panic {O A} (reason : string) : M O A := fun s => (Panic reason, s).

Definition get_obj {O} : M O O := fun s => (Ret (obj s), s).

Definition put_obj {O} (o : O) : M O unit :=
  fun s => (Ret tt, {| obj := o; region := region s; hook_log := hook_log s |}).

(** Invoke an update hook on [val]. *)
Definition call_hook {O} (u : updateClosure) (val : value) : M O (option error) :=
  fun s =>
    let '(err, w) := u val (region s) in
    (Ret err, {| obj := obj s; region := w;
                 hook_log := hook_log s ++ [(val, err)] |}).

Definition init_store {O} (o : O) (w : W) : store O :=
  {| obj := o; region := w; hook_log := [] |}.
End Containers.

Arguments store : clear implicits.
Arguments M : clear implicits.
Arguments updateClosure : clear implicits.
Arguments obj {W O} _.
Arguments region {W O} _.
Arguments hook_log {W O} _.

#[global] Instance M_ret {W O} : MRet (M W O) := fun A => @ret W O A.
#[global] Instance M_bind {W O} : MBind (M W O) := fun A B k c => bind c k.

Section Metrics.
Context {W : Type}.

(** ** PCPSingletonMetric *)

Record PCPSingletonMetric : Type := {
  sm_desc : PCPMetricDesc;
  sm_val : value;
  sm_update : option (updateClosure W)
}.

Definition sm_t (m : PCPSingletonMetric) : MetricType := md_t (sm_desc m).

(** [m.val = val] *)
Definition sm_with_val (m : PCPSingletonMetric) (val : value) : PCPSingletonMetric :=
  {| sm_desc := sm_desc m; sm_val := val; sm_update := sm_update m |}.

(** [m.update = u]: the registry wires the hook when it lays the metric
    out in the mapped region. *)
Definition sm_with_update (m : PCPSingletonMetric) (u : option (updateClosure W))
    : PCPSingletonMetric :=
  {| sm_desc := sm_desc m; sm_val := sm_val m; sm_update := u |}.

Definition NewPCPSingletonMetric `{Env} (val : value) (name : string)
    (t : MetricType) (s : MetricSemantics) (u : MetricUnit) (desc : list string)
    : error + PCPSingletonMetric :=
  if negb (IsCompatible t val) then inl IncompatibleType
  else
    match newPCPMetricDesc name t s u desc with
    | inl err => inl err
    | inr d =>
        let val := resolve t val in
        inr {| sm_desc := d; sm_val := val; sm_update := None |}
    end.

(** [Val]: the stored value (read under the read lock). *)
Definition PCPSingletonMetric_Val : M W PCPSingletonMetric value :=
  m ← get_obj;
  mret (sm_val m).

(** [Set].  The comparison with the stored value is made before the write
    lock is taken; the hook call and the commit are made under it. *)
Definition PCPSingletonMetric_Set (val : value) : M W PCPSingletonMetric (option error) :=
  m ← get_obj;
  if negb (IsCompatible (sm_t m) val) then mret (Some IncompatibleType)
  else
    let val := resolveFloat (sm_t m) (resolveInt (sm_t m) val) in
    if negb (iface_eqb val (sm_val m)) then
      err ← match sm_update m with
            | Some update => call_hook update val
            | None => mret None
            end;
      match err with
      | Some e => mret (Some e)
      | None => put_obj (sm_with_val m val);; mret None
      end
    else mret None.

Definition PCPSingletonMetric_MustSet (val : value) : M W PCPSingletonMetric unit :=
  err ← PCPSingletonMetric_Set val;
  match err with
  | Some _ => panic "MustSet"
  | None => mret tt
  end.
End Metrics.

Arguments PCPSingletonMetric : clear implicits.

(* ===================================================================== *)
(** * Instance metrics *)
(* ===================================================================== *)

(** Modelled from the spec: [PCPInstanceDomain], whose file is not among
    the sources.  [metrics.go] ranges over [indom.instances] by instance
    name and calls [InstanceCount] and [HasInstance]; a domain is "a named
    group of instances", a value map must have "exactly one entry per
    instance in domain", and an instance is unknown when its name "is not in
    the bound domain". *)
Record PCPInstanceDomain : Type := {
  indom_name : string;
  indom_instances : gset string
}.

Definition InstanceCount (indom : PCPInstanceDomain) : Z :=
  Z.of_nat (size (indom_instances indom)).

Definition HasInstance (indom : PCPInstanceDomain) (name : string) : bool :=
  bool_decide (name ∈ indom_instances indom).

(** [for name := range indom.instances] visits every instance name once,
    in an order the language leaves open: [names] is such an order. *)
Definition range_order (indom : PCPInstanceDomain) (names : list string) : Prop :=
  names ≡ₚ elements (indom_instances indom).

Section InstanceMetrics.
Context {W : Type}.

Record instanceValue : Type := {
  iv_val : value;
  iv_update : option (updateClosure W)
}.

Definition newinstanceValue (val : value) : instanceValue :=
  {| iv_val := val; iv_update := None |}.

Definition iv_with_val (iv : instanceValue) (val : value) : instanceValue :=
  {| iv_val := val; iv_update := iv_update iv |}.

Record PCPInstanceMetric : Type := {
  im_desc : PCPMetricDesc;
  im_indom : PCPInstanceDomain;
  im_vals : gmap string instanceValue
}.

Definition im_t (m : PCPInstanceMetric) : MetricType := md_t (im_desc m).

Definition im_with_vals (m : PCPInstanceMetric) (vals : gmap string instanceValue)
    : PCPInstanceMetric :=
  {| im_desc := im_desc m; im_indom := im_indom m; im_vals := vals |}.

(** The loop of [NewPCPInstanceMetric] over the instance names still to
    visit, [mvals] being the map built so far. *)
Fixpoint NewPCPInstanceMetric_loop (t : MetricType) (vals : gmap string value)
    (names : list string) (mvals : gmap string instanceValue)
    : error + gmap string instanceValue :=
  match names with
  | [] => inr mvals
  | name :: rest =>
      match vals !! name with
      | None => inl (MissingInstanceValue name)
      | Some val =>
          if negb (IsCompatible t val) then inl IncompatibleType
          else
            let val := resolve t val in
            NewPCPInstanceMetric_loop t vals rest
              (<[name := newinstanceValue val]> mvals)
      end
  end.

(** [order] is the order in which the [range] loop visits the domain. *)
Definition NewPCPInstanceMetric `{Env} (order : list string)
    (vals : gmap string value) (name : string) (indom : PCPInstanceDomain)
    (t : MetricType) (s : MetricSemantics) (u : MetricUnit) (desc : list string)
    : error + PCPInstanceMetric :=
  if negb (Z.of_nat (size vals) =? InstanceCount indom) then inl InstanceCountMismatch
  else
    match newPCPMetricDesc name t s u desc with
    | inl err => inl err
    | inr d =>
        match NewPCPInstanceMetric_loop t vals order ∅ with
        | inl err => inl err
        | inr mvals => inr {| im_desc := d; im_indom := indom; im_vals := mvals |}
        end
    end.

Definition Indom (m : PCPInstanceMetric) : PCPInstanceDomain := im_indom m.

(** [m.vals[instance]] is a pointer: reading through it panics when the
    map has no entry for [instance]. *)
Definition PCPInstanceMetric_ValInstance (instance : string)
    : M W PCPInstanceMetric (value * option error) :=
  m ← get_obj;
  if negb (HasInstance (im_indom m) instance)
  then mret (VNil, Some (UnknownInstance instance))
  else
    match im_vals m !! instance with
    | None => panic "nil pointer dereference"
    | Some iv => let ans := iv_val iv in mret (ans, None)
    end.

Definition PCPInstanceMetric_SetInstance (instance : string) (val : value)
    : M W PCPInstanceMetric (option error) :=
  m ← get_obj;
  if negb (IsCompatible (im_t m) val) then mret (Some IncompatibleType)
  else if negb (HasInstance (im_indom m) instance)
  then mret (Some (UnknownInstance instance))
  else
    let val := resolveFloat (im_t m) (resolveInt (im_t m) val) in
    match im_vals m !! instance with
    | None => panic "nil pointer dereference"
    | Some iv =>
        if negb (iface_eqb (iv_val iv) val) then
          err ← match iv_update iv with
                | Some update => call_hook update val
                | None => mret None
                end;
          match err with
          | Some e => mret (Some e)
          | None =>
              put_obj (im_with_vals m (<[instance := iv_with_val iv val]> (im_vals m)));;
              mret None
          end
        else mret None
    end.

Definition PCPInstanceMetric_MustSetInstance (instance : string) (val : value)
    : M W PCPInstanceMetric unit :=
  err ← PCPInstanceMetric_SetInstance instance val;
  match err with
  | Some _ => panic "MustSetInstance"
  | None => mret tt
  end.
End InstanceMetrics.

Arguments instanceValue : clear implicits.
Arguments PCPInstanceMetric : clear implicits.

(* ===================================================================== *)
(** * Counters *)
(* ===================================================================== *)

Section Counters.
Context {W : Type}.

(** A [PCPCounter] embeds a pointer to a singleton metric: its methods
    run against that metric. *)
Record PCPCounter : Type := {
  counter_metric : PCPSingletonMetric W
}.

Definition NewPCPCounter `{Env} (val : Z) (name : string) (desc : list string)
    : error + PCPCounter :=
  match NewPCPSingletonMetric (VInt64 val) name Int64Type CounterSemantics
          (UCount OneUnit) desc with
  | inl err => inl err
  | inr m => inr {| counter_metric := m |}
  end.

(** [c.PCPSingletonMetric.Val().(int64)]: the type assertion panics on a
    value of another dynamic type. *)
Definition PCPCounter_Val : M W (PCPSingletonMetric W) Z :=
  v ← PCPSingletonMetric_Val;
  match v with
  | VInt64 z => mret z
  | _ => panic "interface conversion: interface {} is not int64"
  end.

Definition PCPCounter_Set (val : Z) : M W (PCPSingletonMetric W) (option error) :=
  PCPSingletonMetric_Set (VInt64 val).

(** The second half of [Inc]: [v += val; return c.Set(v)], [v] being the
    value [c.Val()] returned. *)
Definition Inc_commit (val v : Z) : M W (PCPSingletonMetric W) (option error) :=
  let v := to_int 64 (v + val) in
  PCPCounter_Set v.

Definition PCPCounter_Inc (val : Z) : M W (PCPSingletonMetric W) (option error) :=
  v ← PCPCounter_Val;
  Inc_commit val v.

Definition PCPCounter_MustInc (val : Z) : M W (PCPSingletonMetric W) unit :=
  err ← PCPCounter_Inc val;
  match err with
  | Some _ => panic "MustInc"
  | None => mret tt
  end.

Definition PCPCounter_Dec (val : Z) : M W (PCPSingletonMetric W) (option error) :=
  PCPCounter_Inc (to_int 64 (- val)).

Definition PCPCounter_MustDec (val : Z) : M W (PCPSingletonMetric W) unit :=
  err ← PCPCounter_Dec val;
  match err with
  | Some _ => panic "MustDec"
  | None => mret tt
  end.

Definition PCPCounter_Up : M W (PCPSingletonMetric W) unit := PCPCounter_MustInc 1.
Definition PCPCounter_Down : M W (PCPSingletonMetric W) unit := PCPCounter_MustDec 1.
End Counters.

Arguments PCPCounter : clear implicits.

(** ** Calls on a counter

    What a client holding a [*PCPCounter] can do to it: the counter's own
    methods, the methods of the embedded singleton metric ([Set] through
    [c.PCPSingletonMetric], [MustSet] by promotion), and, from inside the
    package, the wiring of the update hook. *)
Section CounterCalls.
Context {W : Type}.

Inductive counter_call : Type :=
  | CallSet (val : Z)
  | CallInc (val : Z)
  | CallMustInc (val : Z)
  | CallDec (val : Z)
  | CallMustDec (val : Z)
  | CallUp
  | CallDown
  | CallMetricSet (val : value)
  | CallMustSet (val : value)
  | CallWireHook (u : option (updateClosure W)).

Definition store_after {A} (c : M W (PCPSingletonMetric W) A)
    (s : store W (PCPSingletonMetric W)) : store W (PCPSingletonMetric W) :=
  snd (c s).

(** The store after a call, whether it returned or panicked (a panic
    unwinds through the deferred [Unlock] and leaves the object usable). *)
Definition do_call (c : counter_call) (s : store W (PCPSingletonMetric W))
    : store W (PCPSingletonMetric W) :=
  match c with
  | CallSet val => store_after (PCPCounter_Set val) s
  | CallInc val => store_after (PCPCounter_Inc val) s
  | CallMustInc val => store_after (PCPCounter_MustInc val) s
  | CallDec val => store_after (PCPCounter_Dec val) s
  | CallMustDec val => store_after (PCPCounter_MustDec val) s
  | CallUp => store_after PCPCounter_Up s
  | CallDown => store_after PCPCounter_Down s
  | CallMetricSet val => store_after (PCPSingletonMetric_Set val) s
  | CallMustSet val => store_after (PCPSingletonMetric_MustSet val) s
  | CallWireHook u => store_after (put_obj (sm_with_update (obj s) u)) s
  end.

Definition do_calls (cs : list counter_call) (s : store W (PCPSingletonMetric W))
    : store W (PCPSingletonMetric W) :=
  fold_left (fun s c => do_call c s) cs s.

(** ** Concurrent callers of [Up]

    Each caller of [Up] makes two accesses to the shared metric, each
    under the metric's lock and so atomic: [c.Val()] (read lock), then
    [c.Set(v + 1)] (write lock), the lock being released in between.  A
    schedule names, step after step, the caller that moves. *)
Inductive up_pc : Type :=
  | UpCalled
  | UpLoaded (v : Z)
  | UpReturned
  | UpPanicked.

Record config : Type := {
  shared : store W (PCPSingletonMetric W);
  callers : list up_pc
}.

Definition up_step (pc : up_pc) (s : store W (PCPSingletonMetric W))
    : option (up_pc * store W (PCPSingletonMetric W)) :=
  match pc with
  | UpCalled =>
      match PCPCounter_Val s with
      | (Ret v, s') => Some (UpLoaded v, s')
      | (Panic _, s') => Some (UpPanicked, s')
      end
  | UpLoaded v =>
      match Inc_commit 1 v s with
      | (Ret None, s') => Some (UpReturned, s')
      | (_, s') => Some (UpPanicked, s')
      end
  | UpReturned | UpPanicked => None
  end.

Definition step (i : nat) (c : config) : option config :=
  pc ← callers c !! i;
  '(pc', s') ← up_step pc (shared c);
  Some {| shared := s'; callers := <[i := pc']> (callers c) |}.

Fixpoint run (sched : list nat) (c : config) : option config :=
  match sched with
  | [] => Some c
  | i :: rest => c' ← step i c; run rest c'
  end.

Definition spawn (n : nat) (s : store W (PCPSingletonMetric W)) : config :=
  {| shared := s; callers := replicate n UpCalled |}.
End CounterCalls.

Arguments counter_call : clear implicits.
Arguments config : clear implicits.

(** Every caller reads, then every caller writes. *)
Definition reads_then_writes (n : nat) : list nat := seq 0 n ++ seq 0 n.

(** Every caller runs [Up] to its end before the next one starts. *)
Definition one_after_another (n : nat) : list nat :=
  flat_map (fun i => [i; i]) (seq 0 n).

(* ===================================================================== *)
(** * The instance-domain registry *)
(* ===================================================================== *)

Module InstanceDomains.

(** [getHash(name)]: the identifier hasher at its full 32 bits. *)
Definition getHash `{Env} (name : string) : Z := hash name None.

(** Modelled from the spec: [Instance] and [newInstance], whose file is
    not among the sources: "[{id, name, owning-domain-reference}]".
    The reference is the address of the domain. *)
Record Instance : Type := {
  ins_id : Z;
  ins_name : string;
  ins_indom : nat
}.

Definition newInstance (id : Z) (name : string) (indom : nat) : Instance :=
  {| ins_id := id; ins_name := name; ins_indom := indom |}.

Record InstanceDomain : Type := {
  id : Z;
  name : string;
  instances : gmap Z Instance;
  shortHelpText : string;
  longHelpText : string
}.

(** The process-wide state: the [InstanceDomain] objects allocated so far
    (a [*InstanceDomain] is [Some] of an index into [heap], or [None] for
    [nil]) and the package variable [instanceDomains], [None] while it is
    the nil map. *)
Record state : Type := {
  heap : list InstanceDomain;
  instanceDomains : option (gmap Z nat)
}.

(** [var instanceDomains map[uint32]*InstanceDomain]: the zero value. *)
Definition declared : state := {| heap := []; instanceDomains := None |}.

(** [instanceDomains = make(map[uint32]*InstanceDomain)] *)
Definition make_instanceDomains (st : state) : state :=
  {| heap := heap st; instanceDomains := Some ∅ |}.

(** Reading a nil map finds nothing; assigning to an entry of it panics
    (the object built for the assignment is then unreachable and is left
    out of [heap]). *)
Definition NewInstanceDomain `{Env} (name shortDescription longDescription : string)
    (st : state) : outcome (option nat) * state :=
  let h := getHash name in
  match instanceDomains st ≫= (.!! h) with
  | Some v => (Ret (Some v), st)
  | None =>
      let cache : gmap Z Instance := ∅ in
      match instanceDomains st with
      | None => (Panic "assignment to entry in nil map", st)
      | Some m =>
          let p := length (heap st) in
          let d := {| id := h; name := name; instances := cache;
                      shortHelpText := shortDescription;
                      longHelpText := longDescription |} in
          let m' := <[h := p]> m in
          (Ret (m' !! h), {| heap := heap st ++ [d]; instanceDomains := Some m' |})
      end
  end.

Definition AddInstance `{Env} (indom : option nat) (name : string) (st : state)
    : outcome (option error) * state :=
  match indom ≫= (heap st !!.) with
  | None => (Panic "nil pointer dereference", st)
  | Some d =>
      let p := default 0%nat indom in
      let h := getHash name in
      match instances d !! h with
      | Some _ => (Ret (Some DuplicateInstance), st)
      | None =>
          let ins := newInstance h name p in
          let d' := {| id := id d; name := InstanceDomains.name d;
                       instances := <[h := ins]> (instances d);
                       shortHelpText := shortHelpText d;
                       longHelpText := longHelpText d |} in
          (Ret None, {| heap := <[p := d']> (heap st);
                        instanceDomains := instanceDomains st |})
      end
  end.

(** The address registered for [name], if any. *)
Definition registered `{Env} (name : string) (st : state) : option nat :=
  instanceDomains st ≫= (.!! getHash name).
End InstanceDomains.

(* ===================================================================== *)
(** * A concrete environment for the examples *)
(* ===================================================================== *)

(** The 32-bit FNV-1a hash of a byte string. *)
Definition fnv1a32 (s : string) : Z :=
  fold_left
    (fun h c => (Z.lxor h (Z.of_nat (Ascii.nat_of_ascii c)) * 16777619) mod 2 ^ 32)
    (String.list_ascii_of_string s) 2166136261.

(** String blocks of 256 bytes, identifiers hashed with FNV-1a. *)
Definition example_env : Env := {| StringLength := 256; hash32 := fnv1a32 |}.

(** A region that counts the writes made to it, and a hook that writes. *)
Definition counting_hook : updateClosure nat := fun _ n => (None, S n).

(** A hook whose write always fails. *)
Definition failing_hook : updateClosure nat :=
  fun _ n => (Some (WriterError "write failed"), S n).

(* ===================================================================== *)
(** * Predicates of the statements *)
(* ===================================================================== *)

(** Values of an exact width are left alone by resolution. *)
Definition exact_width (v : value) : bool :=
  match v with
  | VInt _ | VUint _ | VFloat64 _ => false
  | _ => true
  end.

(** The dynamic type a compatible value has once resolved, per metric type. *)
Definition stored_as (t : MetricType) (v : value) : bool :=
  match t, v with
  | Int32Type, VInt32 _ | Uint32Type, VUint32 _
  | Int64Type, VInt64 _ | Uint64Type, VUint64 _
  | FloatType, VFloat32 _ | DoubleType, VFloat64 _
  | StringType, VString _ => true
  | _, _ => false
  end.

(** The update hook was invoked on [x] between [s] and [s'], and failed. *)
Definition hook_failed_on {W O} (s s' : store W O) (x : value) : Prop :=
  ∃ e, hook_log s' = hook_log s ++ [(x, Some e)].

(** The stored value has the dynamic type the metric's type stores. *)
Definition typed {W} (s : store W (PCPSingletonMetric W)) : Prop :=
  stored_as (sm_t (obj s)) (sm_val (obj s)) = true.

(** The name and the description strings a descriptor accepts. *)
Definition valid_desc_args `{Env} (name : string) (desc : list string) : Prop :=
  name ≠ ""%string ∧ len_string name <= StringLength ∧ len_slice desc <= 2.

(** ** Objects for the examples *)

Definition example_desc (t : MetricType) : PCPMetricDesc :=
  {| md_id := 723; md_name := "requests"; md_t := t; md_sem := CounterSemantics;
     md_u := UCount OneUnit; md_shortDescription := ""; md_longDescription := "" |}.

Definition example_singleton (v : value) (u : option (updateClosure nat))
    : store nat (PCPSingletonMetric nat) :=
  init_store {| sm_desc := example_desc Int64Type; sm_val := v; sm_update := u |} 0%nat.

Definition example_indom : PCPInstanceDomain :=
  {| indom_name := "disk"; indom_instances := {[ "sda"%string; "sdb"%string ]} |}.

Definition example_instances : store nat (PCPInstanceMetric nat) :=
  init_store
    {| im_desc := example_desc Int32Type; im_indom := example_indom;
       im_vals :=
         <["sda"%string := {| iv_val := VInt32 5; iv_update := Some counting_hook |}]>
           (<["sdb"%string := {| iv_val := VInt32 7; iv_update := Some counting_hook |}]> ∅) |}
    0%nat.

Definition example_counter : PCPCounter nat :=
  {| counter_metric :=
       {| sm_desc := example_desc Int64Type; sm_val := VInt64 0; sm_update := None |} |}.

Definition example_vals : gmap string value :=
  <["sda"%string := VInt 5]> (<["sdb"%string := VInt 7]> ∅).


(* ===================================================================== *)
(** * Call sequences and invariants *)
(* ===================================================================== *)


Definition is_float_value (v : value) : bool :=
  match v with
  | VFloat32 _ | VFloat64 _ => true
  | _ => false
  end.

Definition is_infinity (f : spec_float) : bool :=
  match f with S754_infinity _ => true | _ => false end.

Section MetricCalls.
Context {W : Type}.

(** What can be done to a singleton metric: [Set], [MustSet], and, from
    inside the package, the wiring of the update hook. *)
Inductive metric_call : Type :=
  | MCallSet (val : value)
  | MCallMustSet (val : value)
  | MCallWireHook (u : option (updateClosure W)).

Definition do_metric_call (c : metric_call) (s : store W (PCPSingletonMetric W))
    : store W (PCPSingletonMetric W) :=
  match c with
  | MCallSet val => (PCPSingletonMetric_Set val s).2
  | MCallMustSet val => (PCPSingletonMetric_MustSet val s).2
  | MCallWireHook u => (put_obj (sm_with_update (obj s) u) s).2
  end.

Definition do_metric_calls (cs : list metric_call) (s : store W (PCPSingletonMetric W))
    : store W (PCPSingletonMetric W) :=
  fold_left (fun s c => do_metric_call c s) cs s.

(** The hook of the metric, if one is wired, never fails. *)
Definition hook_reliable (m : PCPSingletonMetric W) : Prop :=
  ∀ u, sm_update m = Some u → ∀ x w, (u x w).1 = None.

(** What can be done to an instance metric: [SetInstance],
    [MustSetInstance], and the wiring of the hook of one slot
    ([m.vals[instance].update = u], a nil dereference when the slot is
    missing). *)
Inductive instance_call : Type :=
  | ICallSet (instance : string) (val : value)
  | ICallMustSet (instance : string) (val : value)
  | ICallWireHook (instance : string) (u : option (updateClosure W)).

Definition wire_instance_hook (instance : string) (u : option (updateClosure W))
    : M W (PCPInstanceMetric W) unit :=
  m ← get_obj;
  match im_vals m !! instance with
  | None => panic "nil pointer dereference"
  | Some iv =>
      put_obj (im_with_vals m
                 (<[instance := {| iv_val := iv_val iv; iv_update := u |}]> (im_vals m)))
  end.

Definition do_instance_call (c : instance_call) (s : store W (PCPInstanceMetric W))
    : store W (PCPInstanceMetric W) :=
  match c with
  | ICallSet instance val => (PCPInstanceMetric_SetInstance instance val s).2
  | ICallMustSet instance val => (PCPInstanceMetric_MustSetInstance instance val s).2
  | ICallWireHook instance u => (wire_instance_hook instance u s).2
  end.

Definition do_instance_calls (cs : list instance_call)
    (s : store W (PCPInstanceMetric W)) : store W (PCPInstanceMetric W) :=
  fold_left (fun s c => do_instance_call c s) cs s.

(** The slots of an instance metric are those of its domain, and each
    holds a value of the dynamic type the metric's type stores. *)
Definition instance_inv (t : MetricType) (indom : PCPInstanceDomain)
    (m : PCPInstanceMetric W) : Prop :=
  im_t m = t ∧ im_indom m = indom ∧
  dom (im_vals m) = indom_instances indom ∧
  ∀ n iv, im_vals m !! n = Some iv → stored_as t (iv_val iv) = true.

(** The hook of every slot, if one is wired, never fails. *)
Definition hooks_reliable (m : PCPInstanceMetric W) : Prop :=
  ∀ n iv u, im_vals m !! n = Some iv → iv_update iv = Some u →
            ∀ x w, (u x w).1 = None.
End MetricCalls.

Arguments metric_call : clear implicits.
Arguments instance_call : clear implicits.

(** The number of callers of [Up] that have returned. *)
Definition returned_weight (pc : up_pc) : nat :=
  match pc with UpReturned => 1 | _ => 0 end.

Definition returned_count (l : list up_pc) : nat :=
  sum_list_with returned_weight l.

(** The metric is a counter's and holds [z]. *)
Definition counter_at {W} (s : store W (PCPSingletonMetric W)) (z : Z) : Prop :=
  sm_t (obj s) = Int64Type ∧ sm_val (obj s) = VInt64 z.

(** What holds of concurrent callers of [Up] on a counter started at [z]:
    nobody has panicked, and the counter and every value a caller has read
    lie between [z] and [z] plus the number of callers that have
    returned, the counter above [z] once one of them has. *)
Definition up_inv {W} (z : Z) (n : nat) (c : config W) : Prop :=
  length (callers c) = n ∧
  hook_reliable (obj (shared c)) ∧
  Forall (λ pc, match pc with
                | UpPanicked => False
                | UpLoaded v => z <= v <= z + Z.of_nat (returned_count (callers c))
                | _ => True
                end) (callers c) ∧
  ∃ x, counter_at (shared c) x ∧
       z <= x <= z + Z.of_nat (returned_count (callers c)) ∧
       ((0 < returned_count (callers c))%nat → z + 1 <= x).

(** ** Calls on the instance-domain registry *)

Inductive registry_call : Type :=
  | RCallMake
  | RCallNew (name shortDescription longDescription : string)
  | RCallAdd (indom : option nat) (name : string).

Definition do_registry_call `{Env} (c : registry_call) (st : InstanceDomains.state)
    : InstanceDomains.state :=
  match c with
  | RCallMake => InstanceDomains.make_instanceDomains st
  | RCallNew name sd ld => (InstanceDomains.NewInstanceDomain name sd ld st).2
  | RCallAdd indom name => (InstanceDomains.AddInstance indom name st).2
  end.

Definition do_registry_calls `{Env} (cs : list registry_call)
    (st : InstanceDomains.state) : InstanceDomains.state :=
  fold_left (fun st c => do_registry_call c st) cs st.

(** Every registered address is allocated and holds the domain whose id is
    the key it is registered under; every instance sits under its own id
    and points back to the domain that holds it. *)
Definition registry_wf (st : InstanceDomains.state) : Prop :=
  (∀ m h a, InstanceDomains.instanceDomains st = Some m → m !! h = Some a →
     ∃ d, InstanceDomains.heap st !! a = Some d ∧ InstanceDomains.id d = h) ∧
  (∀ a d h ins, InstanceDomains.heap st !! a = Some d →
     InstanceDomains.instances d !! h = Some ins →
     InstanceDomains.ins_id ins = h ∧ InstanceDomains.ins_indom ins = a).

(** A byte writer for the examples: the region is the list of the writes
    made, newest first, and no string can be written. *)
Definition example_writer : Writer (list string) :=
  {| MustWrite := fun _ _ w => "zero-fill"%string :: w;
     WriteVal := fun v _ w =>
       match v with
       | VString _ => ((0, Some (WriterError "string too long")), w)
       | _ => ((8, None), "value"%string :: w)
       end |}.

(** An environment in which every name hashes to 0. *)
Definition colliding_env : Env := {| StringLength := 256; hash32 := fun _ => 0 |}.

(* ===================================================================== *)
(** * Properties: integers, compatibility and resolution *)
(* ===================================================================== *)

Lemma to_uint_range (w z : Z) : 0 <= w → in_uint w (to_uint w z).
Proof.
  intros Hw. unfold in_uint, to_uint.
  apply Z.mod_pos_bound. by apply Z.pow_pos_nonneg.
Qed.


Lemma to_int_range (w z : Z) : 0 < w → in_int w (to_int w z).
Proof.
  intros Hw. unfold in_int, to_int.
  assert (Hp : 2 ^ w = 2 * 2 ^ (w - 1)).
  { rewrite <- Z.pow_succ_r by lia. f_equal. lia. }
  assert (Hpos : 0 < 2 ^ (w - 1)) by (apply Z.pow_pos_nonneg; lia).
  pose proof (Z.mod_pos_bound (z + 2 ^ (w - 1)) (2 ^ w)) as Hb.
  lia.
Qed.

Lemma to_int_id (w z : Z) : 0 < w → in_int w z → to_int w z = z.
Proof.
  intros Hw Hz. unfold in_int in Hz. unfold to_int.
  assert (Hp : 2 ^ w = 2 * 2 ^ (w - 1)).
  { rewrite <- Z.pow_succ_r by lia. f_equal. lia. }
  rewrite Z.mod_small by lia. lia.
Qed.

(** [hash] at a bit width stays below two to that width. *)
Lemma hash_bound `{Env} (name : string) (b : Z) :
  0 <= b → 0 <= hash name (Some b) < 2 ^ b.
Proof.
  intros Hb. unfold hash. rewrite Z.land_ones by done.
  apply Z.mod_pos_bound. by apply Z.pow_pos_nonneg.
Qed.

Lemma hash_uint32 `{Env} (name : string) : in_uint 32 (hash name None).
Proof. unfold hash. by apply to_uint_range. Qed.

Lemma resolve_exact_width (t : MetricType) (v : value) :
  exact_width v = true → resolve t v = v.
Proof. by destruct v. Qed.

(** The two resolution steps of [Set] and [SetInstance] are [resolve]. *)
Lemma resolveFloat_resolveInt (t : MetricType) (v : value) :
  resolveFloat t (resolveInt t v) = resolve t v.
Proof. reflexivity. Qed.

(** Resolving twice is resolving once, for a type that stores the result. *)
Lemma resolve_idempotent (t : MetricType) (v : value) :
  IsCompatible t v = true → resolve t (resolve t v) = resolve t v.
Proof.
  destruct v, t; try done; cbn.
  all: unfold isCompatibleFloat, isCompatibleUint; cbn;
       repeat case_match; done.
Qed.

Lemma resolve_stored_as (t : MetricType) (v : value) :
  IsCompatible t v = true → stored_as t (resolve t v) = true.
Proof.
  destruct v, t; try done; cbn.
  all: unfold isCompatibleFloat, isCompatibleUint; cbn;
       repeat case_match; done.
Qed.

Lemma stored_as_compatible (t : MetricType) (v : value) :
  stored_as t v = true → IsCompatible t v = true.
Proof.
  destruct t, v; cbn; intros Hs; try discriminate Hs; try reflexivity.
  unfold isCompatibleFloat. by case_match.
Qed.

(** C4, as stated, fails: the [int] 2^31 is not compatible with
    [Int32Type], but resolving it wraps it to the [int32] -2^31, which is. *)
Lemma resolve_compat_mismatch :
  supported (VInt (2 ^ 31)) = true ∧ wf_value (VInt (2 ^ 31)) ∧
  resolve Int32Type (VInt (2 ^ 31)) = VInt32 (- 2 ^ 31) ∧
  IsCompatible Int32Type (VInt (2 ^ 31)) = false ∧
  IsCompatible Int32Type (resolve Int32Type (VInt (2 ^ 31))) = true ∧
  IsCompatible Int32Type (VInt (2 ^ 31))
    ≠ IsCompatible Int32Type (resolve Int32Type (VInt (2 ^ 31))).
Proof.
  split; [reflexivity|]. split; [unfold wf_value, in_int; lia|].
  repeat split; try reflexivity. vm_compute. discriminate.
Qed.

(** C4, amended: for every metric type [t] and every value [v] that [t]
    accepts, the resolved value is accepted as well, so on compatible values
    [t.IsCompatible(v)] equals [t.IsCompatible(t.resolve(v))]. *)
Theorem resolve_preserves_compatible (t : MetricType) (v : value) :
  IsCompatible t v = true →
  IsCompatible t (resolve t v) = IsCompatible t v.
Proof.
  intros Hc. rewrite Hc.
  by apply stored_as_compatible, resolve_stored_as.
Qed.

Lemma resolve_preserves_compatible_witness :
  IsCompatible Int32Type (VInt 5) = true ∧
  resolve Int32Type (VInt 5) = VInt32 5 ∧
  IsCompatible Int32Type (resolve Int32Type (VInt 5))
    = IsCompatible Int32Type (VInt 5).
Proof.
  split; [reflexivity|]. split; [reflexivity|].
  apply (resolve_preserves_compatible Int32Type (VInt 5)). reflexivity.
Defined.

(** On the kinds of exact width the equation of C4 holds for every value,
    compatible or not. *)
Lemma resolve_compat_exact_width (t : MetricType) (v : value) :
  exact_width v = true → IsCompatible t (resolve t v) = IsCompatible t v.
Proof. intros Hv. by rewrite resolve_exact_width. Qed.

(* ===================================================================== *)
(** * Properties: units *)
(* ===================================================================== *)

Lemma SpaceUnit_PMAPI_value (s : SpaceUnit) :
  PMAPI s = 2 ^ 28 + SpaceUnit_iota s * 2 ^ 16.
Proof. by destruct s. Qed.

Lemma TimeUnit_PMAPI_value (t : TimeUnit) :
  PMAPI t = 2 ^ 24 + TimeUnit_iota t * 2 ^ 12.
Proof. by destruct t. Qed.

Lemma CountUnit_PMAPI_value (c : CountUnit) : PMAPI c = 2 ^ 20.
Proof. by destruct c. Qed.

Lemma SpaceUnit_iota_range (s : SpaceUnit) : 0 <= SpaceUnit_iota s <= 6.
Proof. destruct s; cbn; lia. Qed.

Lemma TimeUnit_iota_range (t : TimeUnit) : 0 <= TimeUnit_iota t <= 5.
Proof. destruct t; cbn; lia. Qed.

(** C7: units of two different families never have the same 32-bit
    encoding, although their ordinal positions overlap. *)
Theorem unit_families_disjoint (s : SpaceUnit) (t : TimeUnit) (c : CountUnit) :
  PMAPI s ≠ PMAPI t ∧ PMAPI s ≠ PMAPI c ∧ PMAPI t ≠ PMAPI c ∧
  SpaceUnit_iota ByteUnit = TimeUnit_iota NanosecondUnit ∧
  TimeUnit_iota NanosecondUnit = CountUnit_iota OneUnit ∧
  SpaceUnit_iota GigabyteUnit = TimeUnit_iota SecondUnit.
Proof.
  rewrite SpaceUnit_PMAPI_value, TimeUnit_PMAPI_value, CountUnit_PMAPI_value.
  pose proof (SpaceUnit_iota_range s). pose proof (TimeUnit_iota_range t).
  repeat split; lia.
Qed.

(** The encoding tells any two units apart, within a family as well. *)
Lemma MetricUnit_PMAPI_inj (u1 u2 : MetricUnit) : PMAPI u1 = PMAPI u2 → u1 = u2.
Proof.
  destruct u1 as [[]|[]|[]], u2 as [[]|[]|[]]; vm_compute; congruence.
Qed.

Lemma MetricUnit_PMAPI_uint32 (u : MetricUnit) : in_uint 32 (PMAPI u).
Proof. destruct u as [[]|[]|[]]; vm_compute; done. Qed.

(* ===================================================================== *)
(** * Properties: metric descriptors *)
(* ===================================================================== *)

Lemma newPCPMetricDesc_ok `{Env} (n : string) (t : MetricType)
    (s : MetricSemantics) (u : MetricUnit) (desc : list string) :
  n ≠ ""%string → len_string n <= StringLength → len_slice desc <= 2 →
  newPCPMetricDesc n t s u desc =
    inr {| md_id := hash n (Some PCPMetricItemBitLength);
           md_name := n; md_t := t; md_sem := s; md_u := u;
           md_shortDescription := nth 0 desc ""%string;
           md_longDescription := nth 1 desc ""%string |}.
Proof.
  intros Hn Hlen Hdesc. unfold newPCPMetricDesc.
  apply String.eqb_neq in Hn. rewrite Hn.
  destruct (Z.gtb_spec (len_string n) StringLength); [lia|].
  destruct (Z.gtb_spec (len_slice desc) 2); [lia|].
  do 2 f_equal.
  - destruct desc; [done|]. unfold len_slice; cbn [length].
    by destruct (Z.gtb_spec (Z.of_nat (S (length desc))) 0); [|lia].
  - destruct desc as [|a [|b desc]]; [done..|]. unfold len_slice; cbn [length].
    by destruct (Z.gtb_spec (Z.of_nat (S (S (length desc)))) 1); [|lia].
Qed.

Lemma newPCPMetricDesc_type `{Env} (n : string) (t : MetricType)
    (s : MetricSemantics) (u : MetricUnit) (desc : list string) (d : PCPMetricDesc) :
  newPCPMetricDesc n t s u desc = inr d → md_t d = t.
Proof.
  unfold newPCPMetricDesc.
  destruct (String.eqb n ""); [discriminate|].
  destruct (len_string n >? StringLength); [discriminate|].
  destruct (len_slice desc >? 2); [discriminate|].
  by intros [= <-].
Qed.

(** C8: the descriptor constructor fails with [EmptyName] on the empty
    name, with [NameTooLong] on a name longer than [StringLength], with
    [TooManyDescriptions] on more than two description strings (the checks
    are made in this order, the first failing one decides the error), and
    fails in no other case; when it succeeds the id is the name's hash at
    the 10-bit metric-id width, so below 2^10. *)
Theorem newPCPMetricDesc_outcome `{Env} (n : string) (t : MetricType)
    (s : MetricSemantics) (u : MetricUnit) (desc : list string) :
  (n = ""%string → newPCPMetricDesc n t s u desc = inl EmptyName) ∧
  (n ≠ ""%string → len_string n > StringLength →
     newPCPMetricDesc n t s u desc = inl NameTooLong) ∧
  (n ≠ ""%string → len_string n <= StringLength → len_slice desc > 2 →
     newPCPMetricDesc n t s u desc = inl TooManyDescriptions) ∧
  (n ≠ ""%string → len_string n <= StringLength → len_slice desc <= 2 →
     ∃ d, newPCPMetricDesc n t s u desc = inr d ∧
          ID d = hash n (Some PCPMetricItemBitLength) ∧
          0 <= ID d < 2 ^ 10 ∧
          Name d = n ∧ MetricDesc_Type d = t ∧ Semantics d = s ∧ Unit d = u ∧
          ShortDescription d = nth 0 desc ""%string ∧
          LongDescription d = nth 1 desc ""%string) ∧
  ((∃ e, newPCPMetricDesc n t s u desc = inl e) ↔
     n = ""%string ∨ len_string n > StringLength ∨ len_slice desc > 2).
Proof.
  assert (Hempty : n = ""%string → newPCPMetricDesc n t s u desc = inl EmptyName).
  { intros ->. reflexivity. }
  assert (Hlong : n ≠ ""%string → len_string n > StringLength →
                  newPCPMetricDesc n t s u desc = inl NameTooLong).
  { intros Hn Hl. unfold newPCPMetricDesc. apply String.eqb_neq in Hn. rewrite Hn.
    by destruct (Z.gtb_spec (len_string n) StringLength); [|lia]. }
  assert (Hmany : n ≠ ""%string → len_string n <= StringLength → len_slice desc > 2 →
                  newPCPMetricDesc n t s u desc = inl TooManyDescriptions).
  { intros Hn Hl Hd. unfold newPCPMetricDesc. apply String.eqb_neq in Hn. rewrite Hn.
    destruct (Z.gtb_spec (len_string n) StringLength); [lia|].
    by destruct (Z.gtb_spec (len_slice desc) 2); [|lia]. }
  split; [done|]. split; [done|]. split; [done|]. split.
  - intros Hn Hl Hd. eexists. split; [by apply newPCPMetricDesc_ok|].
    cbn. repeat split; try done; by apply hash_bound.
  - split.
    + intros [e He].
      destruct (decide (n = ""%string)) as [|Hn]; [by left|].
      destruct (decide (len_string n > StringLength)) as [|Hl]; [by right; left|].
      destruct (decide (len_slice desc > 2)) as [|Hd]; [by right; right|].
      rewrite newPCPMetricDesc_ok in He by first [done | lia]. discriminate.
    + intros Hcase.
      destruct (decide (n = ""%string)) as [|Hn]; [eauto|].
      destruct (decide (len_string n > StringLength)) as [|Hl]; [eauto|].
      destruct Hcase as [|[|Hd]]; [done..|]. eexists. apply Hmany; [done|lia|done].
Qed.

Lemma newPCPMetricDesc_outcome_witness :
  ∃ d, @newPCPMetricDesc example_env "requests" Int64Type CounterSemantics
         (UCount OneUnit) ["served"%string] = inr d ∧
       0 <= ID d < 2 ^ 10 ∧ ShortDescription d = "served"%string.
Proof.
  destruct (@newPCPMetricDesc_outcome example_env "requests" Int64Type
              CounterSemantics (UCount OneUnit) ["served"%string])
    as (_ & _ & _ & Hok & _).
  destruct Hok as (d & Hd & _ & Hb & _ & _ & _ & _ & Hs & _).
  - discriminate.
  - vm_compute. discriminate.
  - vm_compute. discriminate.
  - exists d. split; [exact Hd|]. split; [exact Hb|exact Hs].
Defined.

(* ===================================================================== *)
(** * Properties: singleton metrics *)
(* ===================================================================== *)

Ltac run_M :=
  unfold PCPSingletonMetric_Set, PCPSingletonMetric_Val, PCPSingletonMetric_MustSet,
    PCPInstanceMetric_SetInstance, PCPInstanceMetric_ValInstance,
    PCPInstanceMetric_MustSetInstance,
    mbind, M_bind, mret, M_ret, bind, ret, get_obj, put_obj, call_hook, panic;
  cbn.

Lemma SFeqb_refl (f : spec_float) : is_nan f = false → SFeqb f f = true.
Proof.
  destruct f as [| [] | | [] m e]; try done; intros _; unfold SFeqb; cbn.
  all: rewrite Z.compare_refl, Pos.compare_cont_refl; done.
Qed.

Lemma SFeqb_nan (f : spec_float) : SFeqb S754_nan f = false ∧ SFeqb f S754_nan = false.
Proof. by destruct f as [| | |[]]. Qed.

(** [==] is reflexive on everything but a NaN. *)
Lemma iface_eqb_refl (v : value) : value_is_nan v = false → iface_eqb v v = true.
Proof.
  destruct v; cbn; intros Hn; try done;
    try apply Z.eqb_refl; try by apply SFeqb_refl.
  - apply String.eqb_refl.
  - by destruct b.
Qed.

(** Values that are [==] have the same dynamic type. *)
Lemma iface_eqb_stored_as (t : MetricType) (a b : value) :
  iface_eqb a b = true → stored_as t a = stored_as t b.
Proof. by destruct a, b, t. Qed.

Section SingletonProperties.
Context {W : Type}.
Implicit Types (s : store W (PCPSingletonMetric W)) (v : value).

(** [Set], one case after the other. *)
Lemma Set_incompatible s v :
  IsCompatible (sm_t (obj s)) v = false →
  PCPSingletonMetric_Set v s = (Ret (Some IncompatibleType), s).
Proof. intros Hc. run_M. by rewrite Hc. Qed.

Lemma Set_unchanged s v :
  IsCompatible (sm_t (obj s)) v = true →
  iface_eqb (resolve (sm_t (obj s)) v) (sm_val (obj s)) = true →
  PCPSingletonMetric_Set v s = (Ret None, s).
Proof.
  intros Hc Heq. run_M. rewrite Hc; cbn.
  rewrite resolveFloat_resolveInt, Heq. reflexivity.
Qed.

Lemma Set_no_hook s v :
  IsCompatible (sm_t (obj s)) v = true →
  iface_eqb (resolve (sm_t (obj s)) v) (sm_val (obj s)) = false →
  sm_update (obj s) = None →
  PCPSingletonMetric_Set v s =
    (Ret None, {| obj := sm_with_val (obj s) (resolve (sm_t (obj s)) v);
                  region := region s; hook_log := hook_log s |}).
Proof.
  intros Hc Heq Hu. run_M. rewrite Hc; cbn.
  rewrite resolveFloat_resolveInt, Heq, Hu. reflexivity.
Qed.

Lemma Set_hook s v (u : updateClosure W) :
  IsCompatible (sm_t (obj s)) v = true →
  iface_eqb (resolve (sm_t (obj s)) v) (sm_val (obj s)) = false →
  sm_update (obj s) = Some u →
  PCPSingletonMetric_Set v s =
    let v' := resolve (sm_t (obj s)) v in
    let log := hook_log s ++ [(v', (u v' (region s)).1)] in
    match (u v' (region s)).1 with
    | Some e =>
        (Ret (Some e), {| obj := obj s; region := (u v' (region s)).2; hook_log := log |})
    | None =>
        (Ret None, {| obj := sm_with_val (obj s) v';
                      region := (u v' (region s)).2; hook_log := log |})
    end.
Proof.
  intros Hc Heq Hu. run_M. rewrite Hc; cbn.
  rewrite resolveFloat_resolveInt, Heq, Hu. cbn.
  destruct (u _ _) as [[e|] w]; reflexivity.
Qed.
End SingletonProperties.

Lemma log_not_grown {A} (l : list A) (a : A) : l ≠ l ++ [a].
Proof.
  intros Heq. apply (f_equal length) in Heq.
  rewrite length_app in Heq. cbn in Heq. lia.
Qed.

Lemma log_grown_inj {A} (l : list A) (a b : A) : l ++ [a] = l ++ [b] → a = b.
Proof. intros Heq. apply app_inv_head in Heq. by injection Heq. Qed.

Section InstanceProperties.
Context {W : Type}.
Implicit Types (s : store W (PCPInstanceMetric W)) (v : value).

Lemma SetInstance_unchanged s (instance : string) v (iv : instanceValue W) :
  IsCompatible (im_t (obj s)) v = true →
  HasInstance (im_indom (obj s)) instance = true →
  im_vals (obj s) !! instance = Some iv →
  iface_eqb (iv_val iv) (resolve (im_t (obj s)) v) = true →
  PCPInstanceMetric_SetInstance instance v s = (Ret None, s).
Proof.
  intros Hc Hi Hv Heq. run_M. rewrite Hc, Hi; cbn.
  rewrite Hv, resolveFloat_resolveInt, Heq. reflexivity.
Qed.

Lemma ValInstance_known s (instance : string) (iv : instanceValue W) :
  HasInstance (im_indom (obj s)) instance = true →
  im_vals (obj s) !! instance = Some iv →
  PCPInstanceMetric_ValInstance instance s = (Ret (iv_val iv, None), s).
Proof. intros Hi Hv. run_M. by rewrite Hi, Hv. Qed.

Lemma ValInstance_unknown s (instance : string) :
  HasInstance (im_indom (obj s)) instance = false →
  PCPInstanceMetric_ValInstance instance s
    = (Ret (VNil, Some (UnknownInstance instance)), s).
Proof. intros Hi. run_M. by rewrite Hi. Qed.
End InstanceProperties.

(** C1: when the value passed to [Set] is compatible and resolves to a value
    equal ([==]) to the stored one, [Set] returns no error, the update hook
    is not invoked (the log of hook invocations and the mapped region are
    what they were) and the stored value is unchanged; and likewise for
    [SetInstance] on the slot of one instance. *)
Theorem Set_same_value_skips_hook {W : Type} :
  (∀ (s : store W (PCPSingletonMetric W)) (v : value),
     IsCompatible (sm_t (obj s)) v = true →
     iface_eqb (resolve (sm_t (obj s)) v) (sm_val (obj s)) = true →
     (PCPSingletonMetric_Set v s).1 = Ret None ∧
     hook_log (PCPSingletonMetric_Set v s).2 = hook_log s ∧
     region (PCPSingletonMetric_Set v s).2 = region s ∧
     sm_val (obj (PCPSingletonMetric_Set v s).2) = sm_val (obj s) ∧
     (PCPSingletonMetric_Set v s).2 = s) ∧
  (∀ (s : store W (PCPInstanceMetric W)) (instance : string) (v : value)
     (iv : instanceValue W),
     IsCompatible (im_t (obj s)) v = true →
     HasInstance (im_indom (obj s)) instance = true →
     im_vals (obj s) !! instance = Some iv →
     iface_eqb (iv_val iv) (resolve (im_t (obj s)) v) = true →
     (PCPInstanceMetric_SetInstance instance v s).1 = Ret None ∧
     hook_log (PCPInstanceMetric_SetInstance instance v s).2 = hook_log s ∧
     region (PCPInstanceMetric_SetInstance instance v s).2 = region s ∧
     im_vals (obj (PCPInstanceMetric_SetInstance instance v s).2) !! instance = Some iv ∧
     (PCPInstanceMetric_SetInstance instance v s).2 = s).
Proof.
  split.
  - intros s v Hc Heq. by rewrite Set_unchanged.
  - intros s instance v iv Hc Hi Hv Heq.
    by rewrite (SetInstance_unchanged s instance v iv).
Qed.

(** C2: [Set] never panics; it returns an error exactly when the value is
    not compatible with the metric's type or the update hook, invoked on
    the resolved value, fails; whenever it returns an error the metric
    object, its stored value included, is what it was; the stored value
    changes only to the resolved value and only when no hook invocation
    failed; and a hook invocation in the log is the metric's hook run on
    the resolved value. *)
Theorem Set_fails_iff {W : Type} (s : store W (PCPSingletonMetric W)) (v : value) :
  (∃ err, (PCPSingletonMetric_Set v s).1 = Ret err ∧
     (is_Some err ↔
        IsCompatible (sm_t (obj s)) v = false ∨
        hook_failed_on s (PCPSingletonMetric_Set v s).2 (resolve (sm_t (obj s)) v))) ∧
  ((PCPSingletonMetric_Set v s).1 ≠ Ret None →
     obj (PCPSingletonMetric_Set v s).2 = obj s) ∧
  (sm_val (obj (PCPSingletonMetric_Set v s).2) ≠ sm_val (obj s) →
     (PCPSingletonMetric_Set v s).1 = Ret None ∧
     sm_val (obj (PCPSingletonMetric_Set v s).2) = resolve (sm_t (obj s)) v ∧
     ∀ x res, hook_log (PCPSingletonMetric_Set v s).2 = hook_log s ++ [(x, res)] →
              res = None) ∧
  (∀ x res, hook_log (PCPSingletonMetric_Set v s).2 = hook_log s ++ [(x, res)] →
     ∃ u, sm_update (obj s) = Some u ∧ x = resolve (sm_t (obj s)) v ∧
          (u x (region s)).1 = res).
Proof.
  unfold hook_failed_on.
  destruct (IsCompatible (sm_t (obj s)) v) eqn:Hc.
  2:{ rewrite Set_incompatible by done. cbn. split; [|split; [|split]].
      - exists (Some IncompatibleType). split; [done|]. split; [by left|by eexists].
      - done.
      - done.
      - intros x res Hlog. by apply log_not_grown in Hlog. }
  destruct (iface_eqb (resolve (sm_t (obj s)) v) (sm_val (obj s))) eqn:Heq.
  { rewrite Set_unchanged by done. cbn. split; [|split; [|split]].
    - exists None. split; [done|]. split.
      + by intros [? [=]].
      + intros [[=]|[e He]]. by apply log_not_grown in He.
    - done.
    - done.
    - intros x res Hlog. by apply log_not_grown in Hlog. }
  destruct (sm_update (obj s)) as [u|] eqn:Hu.
  2:{ rewrite Set_no_hook by done. cbn. split; [|split; [|split]].
      - exists None. split; [done|]. split.
        + by intros [? [=]].
        + intros [[=]|[e He]]. by apply log_not_grown in He.
      - done.
      - intros _. split; [done|]. split; [done|].
        intros x res Hlog. by apply log_not_grown in Hlog.
      - intros x res Hlog. by apply log_not_grown in Hlog. }
  rewrite (Set_hook s v u) by done. cbn.
  destruct (u (resolve (sm_t (obj s)) v) (region s)) as [[e|] w] eqn:Hr; cbn.
  - split; [|split; [|split]].
    + exists (Some e). split; [done|]. split; [|by eexists].
      intros _. right. by exists e.
    + done.
    + done.
    + intros x res Hlog. apply log_grown_inj in Hlog. injection Hlog as <- <-.
      exists u. by rewrite Hr.
  - split; [|split; [|split]].
    + exists None. split; [done|]. split.
      * by intros [? [=]].
      * intros [[=]|[e He]]. apply log_grown_inj in He. discriminate.
    + done.
    + intros _. split; [done|]. split; [done|].
      intros x res Hlog. apply log_grown_inj in Hlog. congruence.
    + intros x res Hlog. apply log_grown_inj in Hlog. injection Hlog as <- <-.
      exists u. by rewrite Hr.
Qed.

(** ** The two theorems on concrete metrics *)

Lemma Set_same_value_skips_hook_witness :
  (PCPSingletonMetric_Set (VInt 5) (example_singleton (VInt64 5) (Some counting_hook))).1
    = Ret None ∧
  hook_log (PCPSingletonMetric_Set (VInt 5)
              (example_singleton (VInt64 5) (Some counting_hook))).2 = [] ∧
  (PCPInstanceMetric_SetInstance "sda" (VInt 5) example_instances).1 = Ret None ∧
  hook_log (PCPInstanceMetric_SetInstance "sda" (VInt 5) example_instances).2 = [].
Proof.
  destruct (@Set_same_value_skips_hook nat) as [Hs Hi].
  destruct (Hs (example_singleton (VInt64 5) (Some counting_hook)) (VInt 5))
    as (H1 & H2 & _); [reflexivity | reflexivity |].
  destruct (Hi example_instances "sda"%string (VInt 5)
              {| iv_val := VInt32 5; iv_update := Some counting_hook |})
    as (H3 & H4 & _); [reflexivity | vm_compute; reflexivity | vm_compute; reflexivity
                      | reflexivity |].
  split; [exact H1|]. split; [exact H2|]. split; [exact H3|exact H4].
Defined.

(** A different value does reach the hook, once. *)
Example Set_other_value_calls_hook :
  PCPSingletonMetric_Set (VInt 6) (example_singleton (VInt64 5) (Some counting_hook))
  = (Ret None,
     {| obj := {| sm_desc := example_desc Int64Type; sm_val := VInt64 6;
                  sm_update := Some counting_hook |};
        region := 1%nat; hook_log := [(VInt64 6, None)] |}).
Proof. reflexivity. Qed.

(** A failing hook leaves the stored value alone, though the region may
    have been touched. *)
Example Set_failing_hook :
  PCPSingletonMetric_Set (VInt 6) (example_singleton (VInt64 5) (Some failing_hook))
  = (Ret (Some (WriterError "write failed")),
     {| obj := {| sm_desc := example_desc Int64Type; sm_val := VInt64 5;
                  sm_update := Some failing_hook |};
        region := 1%nat;
        hook_log := [(VInt64 6, Some (WriterError "write failed"))] |}).
Proof. reflexivity. Qed.

Lemma Set_fails_iff_witness :
  (PCPSingletonMetric_Set (VInt 6)
     (example_singleton (VInt64 5) (Some failing_hook))).1 ≠ Ret None ∧
  sm_val (obj (PCPSingletonMetric_Set (VInt 6)
                 (example_singleton (VInt64 5) (Some failing_hook))).2) = VInt64 5.
Proof.
  destruct (Set_fails_iff (example_singleton (VInt64 5) (Some failing_hook)) (VInt 6))
    as (_ & Hkeep & _).
  split; [discriminate|]. rewrite Hkeep; [reflexivity|discriminate].
Defined.

(** Setting again the value that was just set is a no-op, unless it is a
    NaN. *)
Lemma Set_twice {W : Type} (s : store W (PCPSingletonMetric W)) (v : value) :
  (PCPSingletonMetric_Set v s).1 = Ret None →
  value_is_nan (resolve (sm_t (obj s)) v) = false →
  PCPSingletonMetric_Set v (PCPSingletonMetric_Set v s).2
    = (Ret None, (PCPSingletonMetric_Set v s).2).
Proof.
  intros Hok Hnan.
  destruct (IsCompatible (sm_t (obj s)) v) eqn:Hc;
    [|by rewrite Set_incompatible in Hok].
  destruct (iface_eqb (resolve (sm_t (obj s)) v) (sm_val (obj s))) eqn:Heq.
  { rewrite (Set_unchanged s v) by done. cbn. by rewrite Set_unchanged. }
  destruct (sm_update (obj s)) as [u|] eqn:Hu.
  - rewrite (Set_hook s v u) in * by done. cbn in *.
    destruct (u _ _).1; [discriminate|]. cbn.
    apply Set_unchanged; unfold sm_t, sm_with_val in *; cbn in *; [done|]. by apply iface_eqb_refl.
  - rewrite (Set_no_hook s v) by done. apply Set_unchanged; unfold sm_t, sm_with_val in *; cbn in *; [done|].
    by apply iface_eqb_refl.
Qed.

(** A NaN is never equal to the stored value: every [Set] of a NaN reaches
    the hook, a repeated one too. *)
Example Set_NaN_calls_hook :
  let s := init_store {| sm_desc := example_desc DoubleType;
                         sm_val := VFloat64 S754_nan;
                         sm_update := Some counting_hook |} 0%nat in
  hook_log (PCPSingletonMetric_Set (VFloat64 S754_nan) s).2
    = [(VFloat64 S754_nan, None)].
Proof. reflexivity. Qed.

(* ===================================================================== *)
(** * Properties: the dynamic type of a stored value *)
(* ===================================================================== *)

Section TypedProperties.
Context {W : Type}.
Implicit Types (s : store W (PCPSingletonMetric W)) (v : value).

Lemma Set_store_cases s v :
  (PCPSingletonMetric_Set v s).2 = s ∨
  (IsCompatible (sm_t (obj s)) v = true ∧
   ∃ w log, (PCPSingletonMetric_Set v s).2 =
     {| obj := obj s; region := w; hook_log := log |} ∨
            (PCPSingletonMetric_Set v s).2 =
     {| obj := sm_with_val (obj s) (resolve (sm_t (obj s)) v);
        region := w; hook_log := log |}).
Proof.
  destruct (IsCompatible (sm_t (obj s)) v) eqn:Hc;
    [|left; by rewrite Set_incompatible].
  destruct (iface_eqb (resolve (sm_t (obj s)) v) (sm_val (obj s))) eqn:Heq;
    [left; by rewrite Set_unchanged|].
  right. split; [done|].
  destruct (sm_update (obj s)) as [u|] eqn:Hu.
  - rewrite (Set_hook s v u) by done. cbn.
    destruct (u _ _).1; cbn; eauto.
  - rewrite Set_no_hook by done. eauto.
Qed.

Lemma Set_desc s v :
  sm_desc (obj (PCPSingletonMetric_Set v s).2) = sm_desc (obj s).
Proof.
  destruct (Set_store_cases s v) as [->|(_ & w & log & [-> | ->])]; done.
Qed.

Lemma Set_typed s v : typed s → typed (PCPSingletonMetric_Set v s).2.
Proof.
  unfold typed. intros Ht.
  destruct (Set_store_cases s v) as [->|(Hc & w & log & [-> | ->])]; [done..|].
  cbn. unfold sm_t in *. cbn. by apply resolve_stored_as.
Qed.

Lemma MustSet_store s v :
  (PCPSingletonMetric_MustSet v s).2 = (PCPSingletonMetric_Set v s).2.
Proof.
  unfold PCPSingletonMetric_MustSet, mbind, M_bind, bind.
  destruct (PCPSingletonMetric_Set v s) as [[[e|]|r] s']; done.
Qed.

Lemma NewPCPSingletonMetric_typed `{Env} (val : value) (name : string)
    (t : MetricType) (sem : MetricSemantics) (u : MetricUnit) (desc : list string)
    (m : PCPSingletonMetric W) (w : W) :
  NewPCPSingletonMetric val name t sem u desc = inr m →
  sm_t m = t ∧ sm_val m = resolve t val ∧ sm_update m = None ∧
  typed (init_store m w).
Proof.
  unfold NewPCPSingletonMetric, typed.
  destruct (IsCompatible t val) eqn:Hc; [|discriminate]. cbn.
  destruct (newPCPMetricDesc name t sem u desc) as [e|d] eqn:Hd; [discriminate|].
  intros [= <-]. apply newPCPMetricDesc_type in Hd. unfold sm_t. cbn.
  rewrite Hd. repeat split; try done. by apply resolve_stored_as.
Qed.

(** ** Counters *)

Lemma Val_int64 s (z : Z) :
  sm_val (obj s) = VInt64 z → PCPCounter_Val s = (Ret z, s).
Proof.
  intros Hv. unfold PCPCounter_Val. run_M. by rewrite Hv.
Qed.

Lemma Val_store s : (PCPCounter_Val s).2 = s.
Proof. unfold PCPCounter_Val. run_M. by destruct (sm_val (obj s)). Qed.

Lemma Inc_store s (val : Z) :
  (PCPCounter_Inc val s).2 = s ∨
  ∃ x, (PCPCounter_Inc val s).2 = (PCPSingletonMetric_Set (VInt64 x) s).2.
Proof.
  unfold PCPCounter_Inc, mbind, M_bind, bind.
  pose proof (Val_store s) as Hs.
  destruct (PCPCounter_Val s) as [[z|r] s']; cbn in Hs; subst s'; [|by left].
  right. by eexists.
Qed.

Lemma MustInc_store s (val : Z) :
  (PCPCounter_MustInc val s).2 = (PCPCounter_Inc val s).2.
Proof.
  unfold PCPCounter_MustInc, mbind, M_bind, bind.
  destruct (PCPCounter_Inc val s) as [[[e|]|r] s']; done.
Qed.

Lemma MustDec_store s (val : Z) :
  (PCPCounter_MustDec val s).2 = (PCPCounter_Dec val s).2.
Proof.
  unfold PCPCounter_MustDec, mbind, M_bind, bind.
  destruct (PCPCounter_Dec val s) as [[[e|]|r] s']; done.
Qed.

(** What a call can do to the store: nothing, what a [Set] of the embedded
    metric does, or replace the hook. *)
Lemma do_call_cases (c : counter_call W) s :
  do_call c s = s ∨
  (∃ v, do_call c s = (PCPSingletonMetric_Set v s).2) ∨
  (∃ u, do_call c s = {| obj := sm_with_update (obj s) u; region := region s;
                         hook_log := hook_log s |}).
Proof.
  destruct c; unfold do_call, store_after, PCPCounter_Up, PCPCounter_Down,
    PCPCounter_Set.
  - right; left; by eexists.
  - destruct (Inc_store s val) as [->|[x ->]]; eauto.
  - rewrite MustInc_store. destruct (Inc_store s val) as [->|[x ->]]; eauto.
  - unfold PCPCounter_Dec.
    destruct (Inc_store s (to_int 64 (- val))) as [->|[x ->]]; eauto.
  - rewrite MustDec_store. unfold PCPCounter_Dec.
    destruct (Inc_store s (to_int 64 (- val))) as [->|[x ->]]; eauto.
  - rewrite MustInc_store. destruct (Inc_store s 1) as [->|[x ->]]; eauto.
  - rewrite MustDec_store. unfold PCPCounter_Dec.
    destruct (Inc_store s (to_int 64 (Z.opp 1))) as [->|[x ->]]; eauto.
  - right; left; by eexists.
  - rewrite MustSet_store. right; left; by eexists.
  - right; right. by eexists.
Qed.

Lemma do_call_typed (c : counter_call W) s :
  typed s → typed (do_call c s) ∧ sm_t (obj (do_call c s)) = sm_t (obj s).
Proof.
  intros Ht.
  destruct (do_call_cases c s) as [->|[[v ->]|[u ->]]]; [done| |done].
  split; [by apply Set_typed|]. unfold sm_t. by rewrite Set_desc.
Qed.

Lemma do_calls_typed (cs : list (counter_call W)) s :
  typed s → typed (do_calls cs s) ∧ sm_t (obj (do_calls cs s)) = sm_t (obj s).
Proof.
  revert s. induction cs as [|c cs IH]; intros s Ht; [done|].
  cbn. destruct (do_call_typed c s Ht) as [Ht' <-]. by apply IH.
Qed.

Lemma Int64Type_stored (v : value) :
  stored_as Int64Type v = true → ∃ z, v = VInt64 z.
Proof. destruct v; try done. by eexists. Qed.
End TypedProperties.

(** C9: from its construction on and after any sequence of calls —
    the counter's [Set], [Inc], [Dec], [Up], [Down] and their [Must]
    forms, [Set] and [MustSet] of the embedded metric, the wiring of a
    hook —, returned or panicked, the stored value of a counter has dynamic
    type [int64], so [Val] returns and its type assertion does not panic;
    every value that [Int64Type] accepts resolves to an [int64]. *)
Theorem counter_value_is_int64 `{Env} {W : Type} (val : Z) (name : string)
    (desc : list string) (c : PCPCounter W) (w : W) (calls : list (counter_call W)) :
  NewPCPCounter val name desc = inr c →
  (∃ z, sm_val (obj (do_calls calls (init_store (counter_metric c) w))) = VInt64 z ∧
        PCPCounter_Val (do_calls calls (init_store (counter_metric c) w))
          = (Ret z, do_calls calls (init_store (counter_metric c) w))) ∧
  sm_val (counter_metric c) = VInt64 val ∧
  (∀ v, IsCompatible Int64Type v = true → ∃ z, resolve Int64Type v = VInt64 z).
Proof.
  unfold NewPCPCounter. intros Hnew.
  destruct (NewPCPSingletonMetric _ _ _ _ _ _) as [e|m] eqn:Hm; [discriminate|].
  injection Hnew as <-. cbn.
  destruct (NewPCPSingletonMetric_typed _ _ _ _ _ _ m w Hm) as (Ht & Hv & _ & Hty).
  split; [|split; [done|]].
  - destruct (do_calls_typed calls _ Hty) as [Hty' Ht'].
    unfold typed in Hty'. rewrite Ht' in Hty'. cbn in Hty'. rewrite Ht in Hty'.
    destruct (Int64Type_stored _ Hty') as [z Hz].
    exists z. split; [done|]. by apply Val_int64.
  - intros v Hc. by apply Int64Type_stored, resolve_stored_as.
Qed.

Lemma NewPCPCounter_example :
  @NewPCPCounter nat example_env 0 "requests" [] = inr example_counter.
Proof. vm_compute. reflexivity. Qed.

Lemma counter_value_is_int64_witness :
  ∃ z, PCPCounter_Val
         (do_calls [CallUp; CallWireHook (Some failing_hook); CallUp;
                    CallMetricSet (VInt 7); CallWireHook None; CallDown]
            (init_store (counter_metric example_counter) 0%nat)) =
       (Ret z, do_calls [CallUp; CallWireHook (Some failing_hook); CallUp;
                         CallMetricSet (VInt 7); CallWireHook None; CallDown]
                 (init_store (counter_metric example_counter) 0%nat)).
Proof.
  destruct (@counter_value_is_int64 example_env nat 0 "requests" [] example_counter
              0%nat [CallUp; CallWireHook (Some failing_hook); CallUp;
                     CallMetricSet (VInt 7); CallWireHook None; CallDown])
    as ((z & _ & Hz) & _).
  - vm_compute. reflexivity.
  - exists z. exact Hz.
Defined.

(* ===================================================================== *)
(** * Properties: instance metrics *)
(* ===================================================================== *)

Section LoopProperties.
Context {W : Type}.

(** When every name to visit has a compatible value the loop succeeds, and
    the map it returns holds the resolved value of every visited name. *)
Lemma loop_ok (t : MetricType) (vals : gmap string value) (names : list string)
    (acc : gmap string (instanceValue W)) :
  (∀ n, n ∈ names → ∃ v, vals !! n = Some v ∧ IsCompatible t v = true) →
  ∃ mvals, NewPCPInstanceMetric_loop t vals names acc = inr mvals ∧
    ∀ n, mvals !! n =
         if decide (n ∈ names)
         then (λ v, newinstanceValue (resolve t v)) <$> vals !! n
         else acc !! n.
Proof.
  revert acc. induction names as [|name rest IH]; intros acc Hall.
  - exists acc. split; [done|]. intros n. by rewrite decide_False by set_solver.
  - destruct (Hall name) as (v & Hv & Hc); [set_solver|].
    cbn. rewrite Hv, Hc. cbn.
    destruct (IH (<[name := newinstanceValue (resolve t v)]> acc)) as (mvals & Hm & Hl).
    { intros n Hn. apply Hall. set_solver. }
    exists mvals. split; [done|]. intros n. rewrite Hl.
    destruct (decide (n ∈ rest)) as [Hr|Hr].
    + by rewrite decide_True by set_solver.
    + destruct (decide (n = name)) as [->|Hne].
      * rewrite decide_True by set_solver. by rewrite lookup_insert_eq, Hv.
      * rewrite decide_False by set_solver. by rewrite lookup_insert_ne.
Qed.

(** The loop fails as soon as it visits a name that has no value. *)
Lemma loop_missing_fails (t : MetricType) (vals : gmap string value)
    (names : list string) (acc : gmap string (instanceValue W)) (n : string) :
  n ∈ names → vals !! n = None →
  ∃ e, NewPCPInstanceMetric_loop t vals names acc = inl e.
Proof.
  revert acc. induction names as [|name rest IH]; intros acc Hin Hn; [set_solver|].
  cbn. destruct (vals !! name) as [v|] eqn:Hv; [|by eexists].
  destruct (IsCompatible t v); cbn; [|by eexists].
  apply IH; [|done]. apply elem_of_cons in Hin as [->|]; [congruence|done].
Qed.

(** With compatible values throughout, the failure names a missing
    instance. *)
Lemma loop_missing (t : MetricType) (vals : gmap string value)
    (names : list string) (acc : gmap string (instanceValue W)) (n : string) :
  (∀ n v, n ∈ names → vals !! n = Some v → IsCompatible t v = true) →
  n ∈ names → vals !! n = None →
  ∃ n', n' ∈ names ∧ vals !! n' = None ∧
        NewPCPInstanceMetric_loop t vals names acc = inl (MissingInstanceValue n').
Proof.
  revert acc. induction names as [|name rest IH]; intros acc Hall Hin Hn; [set_solver|].
  cbn. destruct (vals !! name) as [v|] eqn:Hv.
  - rewrite (Hall name v) by set_solver. cbn.
    destruct (IH (<[name := newinstanceValue (resolve t v)]> acc)) as (n' & ? & ? & ?).
    + intros n0 v0 Hn0. apply Hall. set_solver.
    + apply elem_of_cons in Hin as [->|]; [congruence|done].
    + done.
    + exists n'. split; [set_solver|done].
  - exists name. split; [set_solver|done].
Qed.
End LoopProperties.

(** C5, as stated, fails: for the domain {sda, sdb} and a value map that
    has a value for sda only, the constructor fails on the count check,
    with [InstanceCountMismatch], before it looks for the missing name. *)
Lemma NewPCPInstanceMetric_missing_is_count_mismatch :
  "sdb"%string ∈ indom_instances example_indom ∧
  ({[ "sda"%string := VInt 1 ]} : gmap string value) !! "sdb"%string = None ∧
  @NewPCPInstanceMetric nat example_env (elements (indom_instances example_indom))
    {[ "sda"%string := VInt 1 ]} "disk.reads" example_indom Int32Type
    CounterSemantics (UCount OneUnit) []
  = inl InstanceCountMismatch ∧
  @NewPCPInstanceMetric nat example_env (elements (indom_instances example_indom))
    {[ "sda"%string := VInt 1 ]} "disk.reads" example_indom Int32Type
    CounterSemantics (UCount OneUnit) []
  ≠ inl (MissingInstanceValue "sdb").
Proof.
  split; [by vm_compute|]. split; [by vm_compute|].
  assert (Hr : @NewPCPInstanceMetric nat example_env
                 (elements (indom_instances example_indom))
                 {[ "sda"%string := VInt 1 ]} "disk.reads" example_indom Int32Type
                 CounterSemantics (UCount OneUnit) [] = inl InstanceCountMismatch)
    by (vm_compute; reflexivity).
  split; [exact Hr|]. rewrite Hr. discriminate.
Qed.

Lemma range_order_elem (indom : PCPInstanceDomain) (order : list string) (n : string) :
  range_order indom order → n ∈ order ↔ n ∈ indom_instances indom.
Proof. unfold range_order. intros ->. apply elem_of_elements. Qed.

Section InstanceConstruction.
Context `{Env} {W : Type}.
Context (order : list string) (vals : gmap string value) (name : string)
  (indom : PCPInstanceDomain) (t : MetricType) (s : MetricSemantics)
  (u : MetricUnit) (desc : list string).

Local Abbreviation New :=
  (@NewPCPInstanceMetric W _ order vals name indom t s u desc).

Lemma New_count_mismatch :
  size vals ≠ size (indom_instances indom) → New = inl InstanceCountMismatch.
Proof.
  intros Hsz. unfold NewPCPInstanceMetric, InstanceCount.
  destruct (Z.eqb_spec (Z.of_nat (size vals)) (Z.of_nat (size (indom_instances indom))));
    [lia|done].
Qed.

Lemma New_after_checks :
  size vals = size (indom_instances indom) → valid_desc_args name desc →
  New = match NewPCPInstanceMetric_loop t vals order ∅ with
        | inl err => inl err
        | inr mvals =>
            inr {| im_desc := {| md_id := hash name (Some PCPMetricItemBitLength);
                                 md_name := name; md_t := t; md_sem := s; md_u := u;
                                 md_shortDescription := nth 0 desc ""%string;
                                 md_longDescription := nth 1 desc ""%string |};
                   im_indom := indom; im_vals := mvals |}
        end.
Proof.
  intros Hsz (Hn & Hl & Hd). unfold NewPCPInstanceMetric, InstanceCount.
  rewrite Hsz, Z.eqb_refl. cbn. by rewrite newPCPMetricDesc_ok.
Qed.

Lemma New_missing_fails (n : string) :
  range_order indom order →
  n ∈ indom_instances indom → vals !! n = None → ∃ e, New = inl e.
Proof.
  intros Ho Hn Hv. unfold NewPCPInstanceMetric.
  destruct (negb _); [by eexists|].
  destruct (newPCPMetricDesc name t s u desc); [by eexists|].
  destruct (loop_missing_fails (W:=W) t vals order ∅ n) as [e ->]; [|done|by eexists].
  by apply (range_order_elem indom).
Qed.

(** C5, amended.  A value map that lacks a value for an instance of the
    bound domain makes [NewPCPInstanceMetric] fail, whatever the order in
    which the domain is ranged over: with [InstanceCountMismatch] when the
    map and the domain differ in size, and, when they have the same size,
    the name and descriptions are valid and the values supplied for the
    domain's instances are compatible, with [MissingInstanceValue] for a
    missing instance.  With exactly the domain's instances, one compatible
    value per instance, and a valid name and descriptions, it succeeds and
    [ValInstance] returns, for every instance, the supplied value resolved
    to the metric's type. *)
Theorem NewPCPInstanceMetric_outcome :
  range_order indom order →
  ((∃ n, n ∈ indom_instances indom ∧ vals !! n = None) →
     (∃ e, New = inl e) ∧
     (size vals ≠ size (indom_instances indom) → New = inl InstanceCountMismatch) ∧
     (size vals = size (indom_instances indom) → valid_desc_args name desc →
      (∀ n v, n ∈ indom_instances indom → vals !! n = Some v →
              IsCompatible t v = true) →
      ∃ n, n ∈ indom_instances indom ∧ vals !! n = None ∧
           New = inl (MissingInstanceValue n))) ∧
  (dom vals = indom_instances indom →
   (∀ n v, vals !! n = Some v → IsCompatible t v = true) →
   valid_desc_args name desc →
   ∃ m, New = inr m ∧ Indom m = indom ∧ im_t m = t ∧
        ∀ n v (w : W), vals !! n = Some v →
          PCPInstanceMetric_ValInstance n (init_store m w)
            = (Ret (resolve t v, None), init_store m w)).
Proof.
  intros Ho. split.
  - intros (n & Hn & Hv). split; [by apply (New_missing_fails n)|].
    split; [apply New_count_mismatch|].
    intros Hsz Hargs Hall. rewrite New_after_checks by done.
    destruct (loop_missing (W:=W) t vals order ∅ n) as (n' & Hn' & Hv' & ->).
    + intros n0 v0 Hn0. apply Hall. by apply (range_order_elem indom order).
    + by apply (range_order_elem indom).
    + done.
    + exists n'. split; [by apply (range_order_elem indom order)|done].
  - intros Hdom Hall Hargs.
    rewrite New_after_checks; [|by rewrite <- Hdom, size_dom|done].
    destruct (loop_ok (W:=W) t vals order ∅) as (mvals & -> & Hl).
    { intros n Hn. apply (range_order_elem indom) in Hn; [|done].
      rewrite <- Hdom in Hn. apply elem_of_dom in Hn as [v Hv]. eauto. }
    eexists. split; [done|]. split; [done|]. split; [done|].
    intros n v w Hv.
    rewrite (ValInstance_known _ n (newinstanceValue (resolve t v))); [done| |].
    + cbn. apply bool_decide_eq_true. rewrite <- Hdom. by apply elem_of_dom.
    + cbn. rewrite Hl, decide_True, Hv; [done|].
      apply (range_order_elem indom); [done|]. rewrite <- Hdom. by apply elem_of_dom.
Qed.
End InstanceConstruction.

Lemma example_vals_dom : dom example_vals = indom_instances example_indom.
Proof. unfold example_vals, example_indom. cbn. set_solver. Qed.

Lemma example_vals_compatible (n : string) (v : value) :
  example_vals !! n = Some v → IsCompatible Int32Type v = true.
Proof.
  unfold example_vals. intros Hv.
  apply lookup_insert_Some in Hv as [[_ <-]|[_ Hv]]; [done|].
  apply lookup_insert_Some in Hv as [[_ <-]|[_ Hv]]; [done|].
  by rewrite lookup_empty in Hv.
Qed.

Lemma example_valid_desc_args : @valid_desc_args example_env "disk.reads" [].
Proof. split; [done|]. split; by vm_compute. Qed.

Lemma NewPCPInstanceMetric_outcome_witness :
  ∃ m, @NewPCPInstanceMetric nat example_env (elements (indom_instances example_indom))
         example_vals "disk.reads" example_indom Int32Type CounterSemantics
         (UCount OneUnit) [] = inr m ∧
       PCPInstanceMetric_ValInstance "sda" (init_store m 0%nat)
         = (Ret (VInt32 5, None), init_store m 0%nat).
Proof.
  destruct (@NewPCPInstanceMetric_outcome example_env nat
              (elements (indom_instances example_indom)) example_vals "disk.reads"
              example_indom Int32Type CounterSemantics (UCount OneUnit) [])
    as [_ Hexact].
  - unfold range_order. reflexivity.
  - destruct Hexact as (m & Hm & _ & _ & Hval).
    + exact example_vals_dom.
    + exact example_vals_compatible.
    + exact example_valid_desc_args.
    + exists m. split; [exact Hm|].
      apply (Hval "sda"%string (VInt 5) 0%nat). reflexivity.
Defined.

(** A map of the domain's size that lacks sdb (and has a value for a name
    outside the domain instead) fails with [MissingInstanceValue]. *)
Example NewPCPInstanceMetric_missing_same_size :
  @NewPCPInstanceMetric nat example_env (elements (indom_instances example_indom))
    (<["sda"%string := VInt 5]> (<["sdc"%string := VInt 7]> ∅))
    "disk.reads" example_indom Int32Type CounterSemantics (UCount OneUnit) []
  = inl (MissingInstanceValue "sdb").
Proof. vm_compute. reflexivity. Qed.

(* ===================================================================== *)
(** * Properties: counters under concurrent callers *)
(* ===================================================================== *)

Section UpProperties.
Context {W : Type}.
Implicit Types (s : store W (PCPSingletonMetric W)).

(** [Inc] is its two accesses, one after the other. *)
Lemma Inc_two_accesses s (val : Z) :
  PCPCounter_Inc val s =
    match PCPCounter_Val s with
    | (Ret v, s') => Inc_commit val v s'
    | (Panic r, s') => (Panic r, s')
    end.
Proof. reflexivity. Qed.

(** A caller of [Up] scheduled alone, for its two steps, does what [Up]
    does. *)
Lemma up_steps_alone s :
  match PCPCounter_Up s with
  | (Ret _, s') =>
      ∃ v s1, up_step UpCalled s = Some (UpLoaded v, s1) ∧
              up_step (UpLoaded v) s1 = Some (UpReturned, s')
  | (Panic _, s') =>
      up_step UpCalled s = Some (UpPanicked, s') ∨
      ∃ v s1, up_step UpCalled s = Some (UpLoaded v, s1) ∧
              up_step (UpLoaded v) s1 = Some (UpPanicked, s')
  end.
Proof.
  unfold PCPCounter_Up, PCPCounter_MustInc, mbind, M_bind, bind.
  rewrite Inc_two_accesses. unfold up_step.
  destruct (PCPCounter_Val s) as [[v|r] s1]; [|by left].
  destruct (Inc_commit 1 v s1) as [[[e|]|r] s'] eqn:Hc; cbn.
  - right. exists v, s1. by rewrite Hc.
  - exists v, s1. by rewrite Hc.
  - right. exists v, s1. by rewrite Hc.
Qed.

(** On a counter without a hook, [Up] adds one. *)
Lemma Up_increments s (z : Z) :
  sm_t (obj s) = Int64Type → sm_val (obj s) = VInt64 z → sm_update (obj s) = None →
  in_int 64 (z + 1) →
  PCPCounter_Up s =
    (Ret tt, {| obj := sm_with_val (obj s) (VInt64 (z + 1));
                region := region s; hook_log := hook_log s |}).
Proof.
  intros Ht Hv Hu Hz.
  unfold PCPCounter_Up, PCPCounter_MustInc, mbind, M_bind, bind.
  rewrite Inc_two_accesses, (Val_int64 s z) by done.
  unfold Inc_commit, PCPCounter_Set. rewrite to_int_id by done.
  rewrite Set_no_hook; rewrite ?Ht, ?Hv; try done.
  cbn. apply Z.eqb_neq. lia.
Qed.

(** The two steps of a caller of [Up] on a counter without a hook. *)
Lemma up_step_load s (z : Z) :
  sm_val (obj s) = VInt64 z → up_step UpCalled s = Some (UpLoaded z, s).
Proof. intros Hv. unfold up_step. by rewrite (Val_int64 s z). Qed.

Lemma up_step_commit_new s (z v : Z) :
  sm_t (obj s) = Int64Type → sm_val (obj s) = VInt64 z → sm_update (obj s) = None →
  in_int 64 (v + 1) → v + 1 ≠ z →
  up_step (UpLoaded v) s =
    Some (UpReturned, {| obj := sm_with_val (obj s) (VInt64 (v + 1));
                         region := region s; hook_log := hook_log s |}).
Proof.
  intros Ht Hv Hu Hr Hne. unfold up_step, Inc_commit, PCPCounter_Set.
  rewrite to_int_id by done.
  rewrite Set_no_hook; rewrite ?Ht, ?Hv; try done.
  cbn. by apply Z.eqb_neq.
Qed.

Lemma up_step_commit_same s (v : Z) :
  sm_t (obj s) = Int64Type → sm_val (obj s) = VInt64 (v + 1) → in_int 64 (v + 1) →
  up_step (UpLoaded v) s = Some (UpReturned, s).
Proof.
  intros Ht Hv Hr. unfold up_step, Inc_commit, PCPCounter_Set.
  rewrite to_int_id by done.
  rewrite Set_unchanged; rewrite ?Ht, ?Hv; try done.
  cbn. apply Z.eqb_refl.
Qed.

(** Whatever the counter holds, two callers of [Up] that both read before
    either writes add one, not two. *)
Lemma two_callers_lose_an_update s (z : Z) :
  sm_t (obj s) = Int64Type → sm_val (obj s) = VInt64 z → sm_update (obj s) = None →
  in_int 64 (z + 1) →
  run [0; 1; 0; 1]%nat (spawn 2 s) =
    Some {| shared := {| obj := sm_with_val (obj s) (VInt64 (z + 1));
                         region := region s; hook_log := hook_log s |};
            callers := [UpReturned; UpReturned] |}.
Proof.
  intros Ht Hv Hu Hr.
  unfold run, step, spawn. cbn -[up_step].
  rewrite (up_step_load s z) by done. cbn -[up_step].
  rewrite (up_step_load s z) by done. cbn -[up_step].
  rewrite (up_step_commit_new s z z) by (done || lia). cbn -[up_step].
  by rewrite up_step_commit_same.
Qed.
End UpProperties.

(** Ten callers of [Up], one after the other, on a counter created at 0:
    the counter ends at 10. *)
Example ten_Up_one_after_another :
  ∃ cfg, run (one_after_another 10)
           (spawn 10 (init_store (counter_metric example_counter) 0%nat)) = Some cfg ∧
         callers cfg = replicate 10 UpReturned ∧
         PCPCounter_Val (shared cfg) = (Ret 10, shared cfg).
Proof. eexists. split; [vm_compute; reflexivity|]. split; reflexivity. Qed.

(** Two concurrent callers are enough to lose an update. *)
Example two_Up_lost_update :
  ∃ cfg, run [0; 1; 0; 1]%nat
           (spawn 2 (init_store (counter_metric example_counter) 0%nat)) = Some cfg ∧
         callers cfg = [UpReturned; UpReturned] ∧
         PCPCounter_Val (shared cfg) = (Ret 1, shared cfg).
Proof. eexists. split; [vm_compute; reflexivity|]. split; reflexivity. Qed.

(** C3 does not hold of the code: ten concurrent callers of [Up] on a
    counter created by [NewPCPCounter(0, "requests")] can all return and
    leave [Val() = 1].  [Up] reads with [Val] and writes with [Set], each
    under the lock but with the lock released in between; in the schedule
    where every caller reads before any of them writes, each one reads 0
    and sets 1. *)
Theorem concurrent_Up_loses_updates :
  ∃ c cfg,
    @NewPCPCounter nat example_env 0 "requests" [] = inr c ∧
    run (reads_then_writes 10) (spawn 10 (init_store (counter_metric c) 0%nat))
      = Some cfg ∧
    callers cfg = replicate 10 UpReturned ∧
    PCPCounter_Val (shared cfg) = (Ret 1, shared cfg) ∧
    PCPCounter_Val (shared cfg) ≠ (Ret 10, shared cfg).
Proof.
  exists example_counter. eexists.
  split; [exact NewPCPCounter_example|].
  split; [vm_compute; reflexivity|].
  split; [reflexivity|]. split; [reflexivity|]. discriminate.
Qed.

(* ===================================================================== *)
(** * Properties: the instance-domain registry *)
(* ===================================================================== *)

Module InstanceDomainsFacts.
Import InstanceDomains.

Section Facts.
Context `{Env}.
Implicit Types (st : state) (name : string).

Lemma NewInstanceDomain_registered name (sd ld : string) st (a : nat) :
  registered name st = Some a →
  NewInstanceDomain name sd ld st = (Ret (Some a), st).
Proof. unfold registered, NewInstanceDomain. by intros ->. Qed.

Lemma NewInstanceDomain_nil name (sd ld : string) st :
  instanceDomains st = None →
  NewInstanceDomain name sd ld st = (Panic "assignment to entry in nil map", st).
Proof. unfold NewInstanceDomain. by intros ->. Qed.

Lemma NewInstanceDomain_fresh name (sd ld : string) st (m : gmap Z nat) :
  instanceDomains st = Some m → m !! getHash name = None →
  NewInstanceDomain name sd ld st =
    (Ret (Some (length (heap st))),
     {| heap := heap st ++ [{| id := getHash name; name := name; instances := ∅;
                               shortHelpText := sd; longHelpText := ld |}];
        instanceDomains := Some (<[getHash name := length (heap st)]> m) |}).
Proof.
  unfold NewInstanceDomain. intros -> Hm. cbv zeta. cbn [mbind option_bind].
  rewrite Hm. by rewrite lookup_insert_eq.
Qed.

(** The key is the hash: a name that hashes like a registered one gets the
    registered domain. *)
Lemma NewInstanceDomain_same_hash name name' (sd ld : string) st (a : nat) :
  getHash name' = getHash name → registered name st = Some a →
  NewInstanceDomain name' sd ld st = (Ret (Some a), st).
Proof.
  intros Hh Hr. apply NewInstanceDomain_registered.
  unfold registered in *. by rewrite Hh.
Qed.

(** A call that returns has registered the address it returns. *)
Lemma NewInstanceDomain_returns name (sd ld : string) st (p : option nat) st' :
  NewInstanceDomain name sd ld st = (Ret p, st') →
  ∃ a, p = Some a ∧ registered name st' = Some a.
Proof.
  destruct (registered name st) as [a|] eqn:Hr.
  - rewrite (NewInstanceDomain_registered _ _ _ _ a) by done.
    intros [= <- <-]. eauto.
  - destruct (instanceDomains st) as [m|] eqn:Hm.
    + unfold registered in Hr. rewrite Hm in Hr. cbn in Hr.
      rewrite (NewInstanceDomain_fresh _ _ _ _ m) by done.
      intros [= <- <-]. eexists. split; [done|].
      unfold registered. cbn. by rewrite lookup_insert_eq.
    + by rewrite NewInstanceDomain_nil.
Qed.
End Facts.

(** C6: [NewInstanceDomain] is an idempotent factory keyed by the hash of
    the name.  Once a call for a name has returned a domain, a second call
    with the same name, whatever help texts it supplies, returns the same
    address and leaves the whole state, that domain and its help texts
    included, as it was. *)
Theorem NewInstanceDomain_idempotent `{Env} (name sd1 ld1 sd2 ld2 : string)
    (st st1 : state) (p : option nat) :
  NewInstanceDomain name sd1 ld1 st = (Ret p, st1) →
  NewInstanceDomain name sd2 ld2 st1 = (Ret p, st1) ∧
  ∃ a, p = Some a ∧ registered name st1 = Some a ∧
       heap (NewInstanceDomain name sd2 ld2 st1).2 !! a = heap st1 !! a.
Proof.
  intros Hfirst.
  destruct (NewInstanceDomain_returns _ _ _ _ _ _ Hfirst) as (a & -> & Hreg).
  rewrite (NewInstanceDomain_registered _ _ _ _ a) by done.
  split; [done|]. by exists a.
Qed.

(** The help texts of a domain stay those of the call that created it. *)
Lemma NewInstanceDomain_keeps_help `{Env} (name sd1 ld1 sd2 ld2 : string)
    (st : state) (m : gmap Z nat) :
  instanceDomains st = Some m → m !! getHash name = None →
  ∃ d, heap (NewInstanceDomain name sd2 ld2
               (NewInstanceDomain name sd1 ld1 st).2).2 !! length (heap st) = Some d ∧
       shortHelpText d = sd1 ∧ longHelpText d = ld1.
Proof.
  intros Hst Hm. rewrite (NewInstanceDomain_fresh _ sd1 ld1 _ m) by done. cbn.
  rewrite (NewInstanceDomain_registered _ _ _ _ (length (heap st))).
  - cbn. eexists. split; [apply list_lookup_middle; done|done].
  - unfold registered. cbn. by rewrite lookup_insert_eq.
Qed.

Lemma NewInstanceDomain_idempotent_witness :
  @NewInstanceDomain example_env "disk" "other" "text"
    (@NewInstanceDomain example_env "disk" "disks" "block devices"
       (make_instanceDomains declared)).2
  = (Ret (Some 0%nat),
     (@NewInstanceDomain example_env "disk" "disks" "block devices"
        (make_instanceDomains declared)).2).
Proof.
  apply (@NewInstanceDomain_idempotent example_env "disk" "disks" "block devices"
           "other" "text" (make_instanceDomains declared)).
  vm_compute. reflexivity.
Defined.

(** Two calls for "disk" return one domain; adding "sda" to it twice fails
    the second time. *)
Example disk_sda_twice :
  let st0 := make_instanceDomains declared in
  let '(p1, st1) := @NewInstanceDomain example_env "disk" "disks" "" st0 in
  let '(p2, st2) := @NewInstanceDomain example_env "disk" "other" "" st1 in
  let '(e1, st3) := @AddInstance example_env (Some 0%nat) "sda" st2 in
  let '(e2, st4) := @AddInstance example_env (Some 0%nat) "sda" st3 in
  p1 = Ret (Some 0%nat) ∧ p2 = p1 ∧ st2 = st1 ∧
  e1 = Ret None ∧ e2 = Ret (Some DuplicateInstance) ∧ st4 = st3.
Proof. vm_compute. repeat split. Qed.

(** C10: the package variable [instanceDomains] is declared without a
    value, so it is the nil map; while it is, [NewInstanceDomain] panics on
    the assignment to the map, for every name; once the map has been made
    it returns a registered domain for every name. *)
Theorem NewInstanceDomain_needs_made_map `{Env} (name sd ld : string) :
  instanceDomains declared = None ∧
  (∀ st, instanceDomains st = None →
         registered name st = None ∧
         NewInstanceDomain name sd ld st
           = (Panic "assignment to entry in nil map", st)) ∧
  (∀ st, instanceDomains st ≠ None →
         ∃ a st', NewInstanceDomain name sd ld st = (Ret (Some a), st') ∧
                  registered name st' = Some a) ∧
  (∀ st, ∃ a st', NewInstanceDomain name sd ld (make_instanceDomains st)
                    = (Ret (Some a), st')).
Proof.
  assert (Hmade : ∀ st, instanceDomains st ≠ None →
            ∃ a st', NewInstanceDomain name sd ld st = (Ret (Some a), st') ∧
                     registered name st' = Some a).
  { intros st Hst. destruct (instanceDomains st) as [m|] eqn:Hm; [|done].
    destruct (m !! getHash name) as [a|] eqn:Ha.
    - exists a, st. split; [|by unfold registered; rewrite Hm].
      apply NewInstanceDomain_registered. unfold registered. by rewrite Hm.
    - eexists _, _. split; [by apply NewInstanceDomain_fresh|].
      unfold registered. cbn. by rewrite lookup_insert_eq. }
  split; [done|]. split; [|split; [done|]].
  - intros st Hst. split; [by unfold registered; rewrite Hst|].
    by apply NewInstanceDomain_nil.
  - intros st. destruct (Hmade (make_instanceDomains st)) as (a & st' & Hr & _);
      [done|eauto].
Qed.
Lemma NewInstanceDomain_needs_made_map_witness :
  @NewInstanceDomain example_env "disk" "disks" "" declared
  = (Panic "assignment to entry in nil map", declared).
Proof.
  destruct (@NewInstanceDomain_needs_made_map example_env "disk" "disks" "")
    as (_ & Hnil & _).
  apply Hnil. reflexivity.
Defined.
End InstanceDomainsFacts.


(* ===================================================================== *)
(** * More properties: compatibility, resolution and units *)
(* ===================================================================== *)

Ltac unfold_ranges :=
  unfold wf_value, in_int, in_uint, MinInt32, MaxInt32, MinInt64, MaxInt64,
    MaxUint32, MaxUint64 in *.

Lemma isCompatibleInt_spec (t : MetricType) (z : Z) :
  in_int 64 z →
  isCompatibleInt t z = true ↔
    (t = Int32Type ∧ MinInt32 <= z <= MaxInt32) ∨ t = Int64Type ∨
    (t = Uint32Type ∧ 0 <= z <= MaxUint32) ∨ (t = Uint64Type ∧ 0 <= z).
Proof.
  intros Hz. unfold isCompatibleInt. rewrite to_int_id by done.
  pose proof (to_uint_range 64 z ltac:(lia)) as Hu.
  unfold_ranges.
  destruct t; rewrite ?andb_true_iff, ?Z.leb_le; naive_solver lia.
Qed.

Lemma isCompatibleUint_spec (t : MetricType) (z : Z) :
  isCompatibleUint t z = true ↔
    (t = Uint32Type ∧ z <= MaxUint32) ∨ t = Uint64Type.
Proof.
  unfold isCompatibleUint.
  destruct (Z.leb_spec z MaxUint32); destruct t; cbn; naive_solver lia.
Qed.

(** X1: a generic [int] is compatible with a metric type exactly when the
    type is an integer type whose range holds the number; a generic [uint]
    exactly when the type is an unsigned type whose range holds it (never
    with a signed type, whatever the number). *)
Theorem IsCompatible_generic_integers (t : MetricType) (z : Z) :
  (in_int 64 z →
   (IsCompatible t (VInt z) = true ↔
      (t = Int32Type ∧ MinInt32 <= z <= MaxInt32) ∨ t = Int64Type ∨
      (t = Uint32Type ∧ 0 <= z <= MaxUint32) ∨ (t = Uint64Type ∧ 0 <= z))) ∧
  (IsCompatible t (VUint z) = true ↔
     (t = Uint32Type ∧ z <= MaxUint32) ∨ t = Uint64Type).
Proof.
  split; [apply isCompatibleInt_spec | apply isCompatibleUint_spec].
Qed.

Lemma IsCompatible_generic_integers_witness :
  IsCompatible Uint32Type (VInt (2 ^ 32 - 1)) = true ∧
  IsCompatible Uint32Type (VInt (-1)) = false ∧
  IsCompatible Int64Type (VUint 5) = false.
Proof.
  assert (Hin1 : in_int 64 (2 ^ 32 - 1)) by (unfold in_int; lia).
  assert (Hin2 : in_int 64 (-1)) by (unfold in_int; lia).
  destruct (IsCompatible_generic_integers Uint32Type (2 ^ 32 - 1)) as [Hint1 _].
  destruct (IsCompatible_generic_integers Uint32Type (-1)) as [Hint2 _].
  destruct (IsCompatible_generic_integers Int64Type 5) as [_ Huint].
  split; [|split].
  - apply (Hint1 Hin1). right. right. left. unfold MaxUint32.
    split; [reflexivity | lia].
  - apply not_true_is_false. intros Hc. apply (Hint2 Hin2) in Hc.
    destruct Hc as [[Ht _]|[Ht|[[_ Hr]|[Ht _]]]]; [discriminate Ht | discriminate Ht
      | lia | discriminate Ht].
  - apply not_true_is_false. intros Hc.
    apply Huint in Hc. destruct Hc as [[Ht _]|Ht]; discriminate Ht.
Defined.



(** X3: resolution is idempotent, on every value and for every type:
    resolving an already resolved value changes nothing. *)
Theorem resolve_twice (t : MetricType) (v : value) :
  resolve t (resolve t v) = resolve t v.
Proof.
  destruct v; try reflexivity; destruct t; reflexivity.
Qed.

(** X4: a [float64] is accepted by [DoubleType] whatever it is; by
    [FloatType] only when it is neither a NaN nor an infinity (the zeros
    are accepted); and [DoubleType] does not accept a [float32] value, nor
    [FloatType] an integer. *)
Theorem float_compatibility (f : spec_float) :
  IsCompatible DoubleType (VFloat64 f) = true ∧
  (IsCompatible FloatType (VFloat64 f) = true →
     is_nan f = false ∧ is_infinity f = false) ∧
  (∀ s, IsCompatible FloatType (VFloat64 (S754_zero s)) = true) ∧
  IsCompatible FloatType (VFloat64 MaxFloat32) = true ∧
  IsCompatible DoubleType (VFloat32 f) = false ∧
  (∀ z, IsCompatible FloatType (VInt z) = false ∧
        IsCompatible DoubleType (VInt z) = false).
Proof.
  split; [|split; [|split; [|split; [|split]]]].
  - cbn. unfold isCompatibleFloat. by case_match.
  - cbn. unfold isCompatibleFloat.
    destruct f as [s|[]| |s m e]; cbn; try done.
  - by intros [].
  - reflexivity.
  - reflexivity.
  - intros z. split; reflexivity.
Qed.

Lemma float_compatibility_witness :
  is_nan (S754_finite false 1 0) = false ∧ is_infinity (S754_finite false 1 0) = false.
Proof.
  destruct (float_compatibility (S754_finite false 1 0)) as (_ & Hf & _).
  apply Hf. reflexivity.
Defined.

(** X5: the PMAPI encoding is injective on all fourteen units, within a
    family as across families; every encoding fits 32 bits; and the bits
    from 20 up are the same exactly for two units of one family. *)
Theorem PMAPI_injective (u1 u2 : MetricUnit) :
  (PMAPI u1 = PMAPI u2 ↔ u1 = u2) ∧
  in_uint 32 (PMAPI u1) ∧
  (Z.shiftr (PMAPI u1) 20 = Z.shiftr (PMAPI u2) 20 ↔
     match u1, u2 with
     | USpace _, USpace _ | UTime _, UTime _ | UCount _, UCount _ => True
     | _, _ => False
     end).
Proof.
  split; [|split].
  - split; [apply MetricUnit_PMAPI_inj | by intros ->].
  - apply MetricUnit_PMAPI_uint32.
  - destruct u1 as [[]|[]|[]], u2 as [[]|[]|[]]; vm_compute; split;
      first [discriminate | done].
Qed.

(* ===================================================================== *)
(** * More properties: singleton metrics *)
(* ===================================================================== *)

(** Outside the floats, [==] is equality. *)
Lemma iface_eqb_eq (a b : value) :
  is_float_value a = false → iface_eqb a b = true → a = b.
Proof.
  destruct a, b; try done; cbn; intros _ Heq.
  all: try (apply Z.eqb_eq in Heq; by subst).
  - apply String.eqb_eq in Heq. by subst.
  - apply Bool.eqb_prop in Heq. by subst.
Qed.

(** A value of the dynamic type the metric's type stores is its own
    resolution. *)
Lemma stored_as_resolved (t : MetricType) (v : value) :
  stored_as t v = true → resolve t v = v.
Proof. by destruct v, t. Qed.

Section MoreSingletonProperties.
Context {W : Type}.
Implicit Types (s : store W (PCPSingletonMetric W)) (v : value).

Lemma do_metric_call_typed (c : metric_call W) s :
  typed s →
  typed (do_metric_call c s) ∧ sm_t (obj (do_metric_call c s)) = sm_t (obj s).
Proof.
  intros Ht. destruct c as [v|v|u]; cbn [do_metric_call].
  - split; [by apply Set_typed|]. unfold sm_t. by rewrite Set_desc.
  - rewrite MustSet_store. split; [by apply Set_typed|].
    unfold sm_t. by rewrite Set_desc.
  - done.
Qed.

Lemma do_metric_calls_typed (cs : list (metric_call W)) s :
  typed s →
  typed (do_metric_calls cs s) ∧ sm_t (obj (do_metric_calls cs s)) = sm_t (obj s).
Proof.
  revert s. induction cs as [|c cs IH]; intros s Ht; [done|].
  cbn. destruct (do_metric_call_typed c s Ht) as [Ht' <-]. by apply IH.
Qed.

(** With a hook that does not fail, [Set] of a compatible value succeeds,
    and the stored value is then [==] to the resolved one. *)
Lemma Set_reliable s v :
  IsCompatible (sm_t (obj s)) v = true → hook_reliable (obj s) →
  (PCPSingletonMetric_Set v s).1 = Ret None ∧
  sm_desc (obj (PCPSingletonMetric_Set v s).2) = sm_desc (obj s) ∧
  sm_update (obj (PCPSingletonMetric_Set v s).2) = sm_update (obj s) ∧
  (sm_val (obj (PCPSingletonMetric_Set v s).2) = resolve (sm_t (obj s)) v ∨
   (sm_val (obj (PCPSingletonMetric_Set v s).2) = sm_val (obj s) ∧
    iface_eqb (resolve (sm_t (obj s)) v) (sm_val (obj s)) = true)).
Proof.
  intros Hc Hrel.
  destruct (iface_eqb (resolve (sm_t (obj s)) v) (sm_val (obj s))) eqn:Heq.
  { rewrite Set_unchanged by done. cbn. naive_solver. }
  destruct (sm_update (obj s)) as [u|] eqn:Hu.
  - rewrite (Set_hook s v u) by done. cbn.
    rewrite (Hrel u Hu). cbn. naive_solver.
  - rewrite Set_no_hook by done. cbn. naive_solver.
Qed.
End MoreSingletonProperties.

(** X6: [NewPCPSingletonMetric] checks the value before the name: an
    incompatible value gives [IncompatibleType] whatever the name and the
    descriptions; with a compatible value a descriptor error is passed on;
    otherwise the metric is built with the resolved value, which its type
    accepts, and without an update hook. *)
Theorem NewPCPSingletonMetric_outcome `{Env} {W : Type} (val : value)
    (name : string) (t : MetricType) (sem : MetricSemantics) (u : MetricUnit)
    (desc : list string) :
  (IsCompatible t val = false →
     @NewPCPSingletonMetric W _ val name t sem u desc = inl IncompatibleType) ∧
  (IsCompatible t val = true →
     ∀ e, newPCPMetricDesc name t sem u desc = inl e →
          @NewPCPSingletonMetric W _ val name t sem u desc = inl e) ∧
  (IsCompatible t val = true → valid_desc_args name desc →
     ∃ m, @NewPCPSingletonMetric W _ val name t sem u desc = inr m ∧
          sm_val m = resolve t val ∧ sm_update m = None ∧ sm_t m = t ∧
          Name (sm_desc m) = name ∧ IsCompatible t (sm_val m) = true).
Proof.
  unfold NewPCPSingletonMetric. split; [|split].
  - by intros ->.
  - intros -> e ->. done.
  - intros Hc (Hn & Hl & Hd). rewrite Hc. cbn.
    rewrite newPCPMetricDesc_ok by done.
    eexists. split; [done|]. cbn. repeat split.
    by apply stored_as_compatible, resolve_stored_as.
Qed.

Lemma NewPCPSingletonMetric_outcome_witness :
  @NewPCPSingletonMetric nat example_env (VString "x") "" Int32Type NoSemantics
    (UCount OneUnit) [] = inl IncompatibleType ∧
  ∃ m, @NewPCPSingletonMetric nat example_env (VInt 5) "requests" Int32Type
         NoSemantics (UCount OneUnit) [] = inr m ∧ sm_val m = VInt32 5.
Proof.
  split.
  - destruct (@NewPCPSingletonMetric_outcome example_env nat (VString "x") ""
                Int32Type NoSemantics (UCount OneUnit) []) as (Hbad & _).
    apply Hbad. reflexivity.
  - destruct (@NewPCPSingletonMetric_outcome example_env nat (VInt 5) "requests"
                Int32Type NoSemantics (UCount OneUnit) []) as (_ & _ & Hok).
    destruct Hok as (m & Hm & Hv & _); [reflexivity| |].
    + split; [discriminate|]. split; vm_compute; discriminate.
    + exists m. split; [exact Hm|exact Hv].
Defined.

(** X7: whatever is done to a singleton metric after its construction —
    [Set] and [MustSet] with any values, returned or panicked, and any
    wiring of the hook —, its type does not change and its stored value is
    one its type accepts, of the exact width the type stores. *)
Theorem singleton_value_stays_compatible `{Env} {W : Type} (val : value)
    (name : string) (t : MetricType) (sem : MetricSemantics) (u : MetricUnit)
    (desc : list string) (m : PCPSingletonMetric W) (w : W)
    (calls : list (metric_call W)) :
  NewPCPSingletonMetric val name t sem u desc = inr m →
  sm_t (obj (do_metric_calls calls (init_store m w))) = t ∧
  IsCompatible t (sm_val (obj (do_metric_calls calls (init_store m w)))) = true ∧
  resolve t (sm_val (obj (do_metric_calls calls (init_store m w))))
    = sm_val (obj (do_metric_calls calls (init_store m w))).
Proof.
  intros Hm.
  destruct (NewPCPSingletonMetric_typed _ _ _ _ _ _ m w Hm) as (Ht & _ & _ & Hty).
  destruct (do_metric_calls_typed calls _ Hty) as [Hty' Ht'].
  unfold typed in Hty'. rewrite Ht' in *. cbn in Ht', Hty'. rewrite Ht in *.
  split; [done|]. split; [by apply stored_as_compatible|].
  by apply stored_as_resolved.
Qed.

Lemma singleton_value_stays_compatible_witness :
  IsCompatible Int32Type
    (sm_val (obj (do_metric_calls
                    [MCallSet (VInt 7); MCallWireHook (Some failing_hook);
                     MCallMustSet (VInt 8); MCallSet (VString "x")]
                    (init_store {| sm_desc := example_desc Int32Type;
                                   sm_val := VInt32 5; sm_update := None |} 0%nat))))
  = true.
Proof.
  apply (@singleton_value_stays_compatible example_env nat (VInt 5) "requests"
           Int32Type CounterSemantics (UCount OneUnit) []).
  vm_compute. reflexivity.
Defined.

(** X8: after a [Set] that returned no error, [Val] returns a value equal
    ([==]) to the resolved one, unless that is a NaN; outside the floats it
    returns the resolved value itself. *)
Theorem Set_then_Val {W : Type} (s : store W (PCPSingletonMetric W)) (v : value) :
  (PCPSingletonMetric_Set v s).1 = Ret None →
  value_is_nan (resolve (sm_t (obj s)) v) = false →
  ∃ x, PCPSingletonMetric_Val (PCPSingletonMetric_Set v s).2
         = (Ret x, (PCPSingletonMetric_Set v s).2) ∧
       iface_eqb (resolve (sm_t (obj s)) v) x = true ∧
       (is_float_value (resolve (sm_t (obj s)) v) = false →
        x = resolve (sm_t (obj s)) v).
Proof.
  intros Hok Hnan. eexists. split; [reflexivity|].
  assert (Heq : iface_eqb (resolve (sm_t (obj s)) v)
                  (sm_val (obj (PCPSingletonMetric_Set v s).2)) = true).
  { destruct (IsCompatible (sm_t (obj s)) v) eqn:Hc;
      [|by rewrite Set_incompatible in Hok].
    destruct (iface_eqb (resolve (sm_t (obj s)) v) (sm_val (obj s))) eqn:Heq.
    { by rewrite Set_unchanged. }
    destruct (sm_update (obj s)) as [u|] eqn:Hu.
    - rewrite (Set_hook s v u) in * by done. cbn in *.
      destruct (u _ _).1; [discriminate|]. cbn. by apply iface_eqb_refl.
    - rewrite Set_no_hook by done. cbn. by apply iface_eqb_refl. }
  split; [done|]. intros Hf. symmetry. by apply iface_eqb_eq.
Qed.

Lemma Set_then_Val_witness :
  ∃ x, PCPSingletonMetric_Val
         (PCPSingletonMetric_Set (VInt 6)
            (example_singleton (VInt64 5) (Some counting_hook))).2
       = (Ret x, (PCPSingletonMetric_Set (VInt 6)
                    (example_singleton (VInt64 5) (Some counting_hook))).2) ∧
       x = VInt64 6.
Proof.
  destruct (Set_then_Val (example_singleton (VInt64 5) (Some counting_hook)) (VInt 6))
    as (x & Hx & _ & Hexact); [reflexivity | reflexivity |].
  exists x. split; [exact Hx|]. apply Hexact. reflexivity.
Defined.

(** X9: a [Set] invokes the update hook at most once; it does so exactly
    when the value is compatible, differs from the stored one and a hook is
    wired; and when it does not, the mapped region is left as it was. *)
Theorem Set_hook_calls {W : Type} (s : store W (PCPSingletonMetric W)) (v : value) :
  ∃ l, hook_log (PCPSingletonMetric_Set v s).2 = hook_log s ++ l ∧
       (length l ≤ 1)%nat ∧
       (l ≠ [] ↔
          IsCompatible (sm_t (obj s)) v = true ∧
          iface_eqb (resolve (sm_t (obj s)) v) (sm_val (obj s)) = false ∧
          sm_update (obj s) ≠ None) ∧
       (l = [] → region (PCPSingletonMetric_Set v s).2 = region s).
Proof.
  destruct (IsCompatible (sm_t (obj s)) v) eqn:Hc.
  2:{ rewrite Set_incompatible by done. exists []. cbn.
      rewrite app_nil_r. naive_solver. }
  destruct (iface_eqb (resolve (sm_t (obj s)) v) (sm_val (obj s))) eqn:Heq.
  { rewrite Set_unchanged by done. exists []. cbn.
    rewrite app_nil_r. naive_solver. }
  destruct (sm_update (obj s)) as [u|] eqn:Hu.
  - rewrite (Set_hook s v u) by done. cbn.
    exists [(resolve (sm_t (obj s)) v, (u (resolve (sm_t (obj s)) v) (region s)).1)].
    destruct (u _ _).1; cbn; naive_solver.
  - rewrite Set_no_hook by done. exists []. cbn.
    rewrite app_nil_r. naive_solver.
Qed.

(* ===================================================================== *)
(** * More properties: instance metrics *)
(* ===================================================================== *)

Section MoreInstanceProperties.
Context {W : Type}.
Implicit Types (s : store W (PCPInstanceMetric W)) (v : value) (n : string).

(** [SetInstance], one case after the other. *)
Lemma SetInstance_incompatible s n v :
  IsCompatible (im_t (obj s)) v = false →
  PCPInstanceMetric_SetInstance n v s = (Ret (Some IncompatibleType), s).
Proof. intros Hc. run_M. by rewrite Hc. Qed.

Lemma SetInstance_unknown s n v :
  IsCompatible (im_t (obj s)) v = true →
  HasInstance (im_indom (obj s)) n = false →
  PCPInstanceMetric_SetInstance n v s = (Ret (Some (UnknownInstance n)), s).
Proof. intros Hc Hi. run_M. by rewrite Hc, Hi. Qed.

Lemma SetInstance_no_slot s n v :
  IsCompatible (im_t (obj s)) v = true →
  HasInstance (im_indom (obj s)) n = true →
  im_vals (obj s) !! n = None →
  PCPInstanceMetric_SetInstance n v s = (Panic "nil pointer dereference", s).
Proof. intros Hc Hi Hv. run_M. by rewrite Hc, Hi, Hv. Qed.

Lemma SetInstance_no_hook s n v (iv : instanceValue W) :
  IsCompatible (im_t (obj s)) v = true →
  HasInstance (im_indom (obj s)) n = true →
  im_vals (obj s) !! n = Some iv →
  iface_eqb (iv_val iv) (resolve (im_t (obj s)) v) = false →
  iv_update iv = None →
  PCPInstanceMetric_SetInstance n v s =
    (Ret None,
     {| obj := im_with_vals (obj s)
                 (<[n := iv_with_val iv (resolve (im_t (obj s)) v)]> (im_vals (obj s)));
        region := region s; hook_log := hook_log s |}).
Proof.
  intros Hc Hi Hv Heq Hu. run_M. rewrite Hc, Hi; cbn.
  rewrite Hv, resolveFloat_resolveInt, Heq; cbn. by rewrite Hu.
Qed.

Lemma SetInstance_hook s n v (iv : instanceValue W) (u : updateClosure W) :
  IsCompatible (im_t (obj s)) v = true →
  HasInstance (im_indom (obj s)) n = true →
  im_vals (obj s) !! n = Some iv →
  iface_eqb (iv_val iv) (resolve (im_t (obj s)) v) = false →
  iv_update iv = Some u →
  PCPInstanceMetric_SetInstance n v s =
    let v' := resolve (im_t (obj s)) v in
    let log := hook_log s ++ [(v', (u v' (region s)).1)] in
    match (u v' (region s)).1 with
    | Some e =>
        (Ret (Some e), {| obj := obj s; region := (u v' (region s)).2; hook_log := log |})
    | None =>
        (Ret None,
         {| obj := im_with_vals (obj s) (<[n := iv_with_val iv v']> (im_vals (obj s)));
            region := (u v' (region s)).2; hook_log := log |})
    end.
Proof.
  intros Hc Hi Hv Heq Hu. run_M. rewrite Hc, Hi; cbn.
  rewrite Hv, resolveFloat_resolveInt, Heq; cbn. rewrite Hu. cbn.
  destruct (u _ _) as [[e|] w]; reflexivity.
Qed.

(** What [SetInstance] can do to the object: nothing, or give the slot of
    the instance the resolved value. *)
Lemma SetInstance_object_cases s n v :
  obj (PCPInstanceMetric_SetInstance n v s).2 = obj s ∨
  ∃ iv, IsCompatible (im_t (obj s)) v = true ∧
        HasInstance (im_indom (obj s)) n = true ∧
        im_vals (obj s) !! n = Some iv ∧
        (PCPInstanceMetric_SetInstance n v s).1 = Ret None ∧
        obj (PCPInstanceMetric_SetInstance n v s).2 =
          im_with_vals (obj s)
            (<[n := iv_with_val iv (resolve (im_t (obj s)) v)]> (im_vals (obj s))).
Proof.
  destruct (IsCompatible (im_t (obj s)) v) eqn:Hc;
    [|left; by rewrite SetInstance_incompatible].
  destruct (HasInstance (im_indom (obj s)) n) eqn:Hi;
    [|left; by rewrite SetInstance_unknown].
  destruct (im_vals (obj s) !! n) as [iv|] eqn:Hv;
    [|left; by rewrite SetInstance_no_slot].
  destruct (iface_eqb (iv_val iv) (resolve (im_t (obj s)) v)) eqn:Heq;
    [left; by rewrite (SetInstance_unchanged s n v iv)|].
  destruct (iv_update iv) as [u|] eqn:Hu.
  - rewrite (SetInstance_hook s n v iv u) by done. cbn.
    destruct (u _ _).1; cbn; [by left|]. right. by exists iv.
  - rewrite (SetInstance_no_hook s n v iv) by done. right. by exists iv.
Qed.

Lemma MustSetInstance_store s n v :
  (PCPInstanceMetric_MustSetInstance n v s).2 = (PCPInstanceMetric_SetInstance n v s).2.
Proof.
  unfold PCPInstanceMetric_MustSetInstance, mbind, M_bind, bind.
  destruct (PCPInstanceMetric_SetInstance n v s) as [[[e|]|r] s']; done.
Qed.

Lemma instance_inv_update (t : MetricType) (indom : PCPInstanceDomain)
    (m : PCPInstanceMetric W) n (iv iv' : instanceValue W) :
  instance_inv t indom m → im_vals m !! n = Some iv →
  stored_as t (iv_val iv') = true →
  instance_inv t indom (im_with_vals m (<[n := iv']> (im_vals m))).
Proof.
  intros (Ht & Hd & Hdom & Hty) Hv Hs. unfold instance_inv. cbn.
  split; [done|]. split; [done|]. split.
  - rewrite <- Hdom. apply dom_insert_lookup_L. by eexists.
  - intros n' iv0 Hl. apply lookup_insert_Some in Hl as [[_ <-]|[_ Hl]]; [done|].
    by apply (Hty n').
Qed.

Lemma do_instance_call_inv (t : MetricType) (indom : PCPInstanceDomain)
    (c : instance_call W) s :
  instance_inv t indom (obj s) → instance_inv t indom (obj (do_instance_call c s)).
Proof.
  intros Hinv. pose proof Hinv as (Ht & _).
  assert (Hset : ∀ n v, instance_inv t indom (obj (PCPInstanceMetric_SetInstance n v s).2)).
  { intros n v.
    destruct (SetInstance_object_cases s n v) as [->|(iv & Hc & _ & Hv & _ & ->)]; [done|].
    apply (instance_inv_update t indom (obj s) n iv); [done..|].
    cbn. rewrite Ht in *. by apply resolve_stored_as. }
  destruct c as [n v|n v|n u]; cbn [do_instance_call].
  - apply Hset.
  - rewrite MustSetInstance_store. apply Hset.
  - unfold wire_instance_hook. run_M.
    destruct (im_vals (obj s) !! n) as [iv|] eqn:Hv; cbn; [|done].
    apply (instance_inv_update t indom (obj s) n iv); [done..|].
    cbn. destruct Hinv as (_ & _ & _ & Hty). by apply (Hty n iv).
Qed.

Lemma do_instance_calls_inv (t : MetricType) (indom : PCPInstanceDomain)
    (cs : list (instance_call W)) s :
  instance_inv t indom (obj s) → instance_inv t indom (obj (do_instance_calls cs s)).
Proof.
  revert s. induction cs as [|c cs IH]; intros s Hinv; [done|].
  cbn. apply IH. by apply do_instance_call_inv.
Qed.

(** A loop that succeeded found a compatible value for every name. *)
Lemma loop_inr (t : MetricType) (vals : gmap string value) (names : list string)
    (acc mvals : gmap string (instanceValue W)) :
  NewPCPInstanceMetric_loop t vals names acc = inr mvals →
  ∀ n, n ∈ names → ∃ v, vals !! n = Some v ∧ IsCompatible t v = true.
Proof.
  revert acc. induction names as [|name rest IH]; intros acc Hl n Hn; [set_solver|].
  cbn in Hl. destruct (vals !! name) as [v|] eqn:Hv; [|discriminate].
  destruct (IsCompatible t v) eqn:Hc; cbn in Hl; [|discriminate].
  apply elem_of_cons in Hn as [->|Hn]; [eauto|]. by apply (IH _ Hl).
Qed.

Lemma New_instance_inv `{Env} (order : list string) (vals : gmap string value)
    (name : string) (indom : PCPInstanceDomain) (t : MetricType)
    (sem : MetricSemantics) (u : MetricUnit) (desc : list string)
    (m : PCPInstanceMetric W) :
  range_order indom order →
  NewPCPInstanceMetric order vals name indom t sem u desc = inr m →
  instance_inv t indom m ∧
  ∀ n, im_vals m !! n =
       if decide (n ∈ indom_instances indom)
       then (λ v, newinstanceValue (resolve t v)) <$> vals !! n else None.
Proof.
  intros Ho. unfold NewPCPInstanceMetric.
  destruct (negb _); [discriminate|].
  destruct (newPCPMetricDesc name t sem u desc) as [e|d] eqn:Hd; [discriminate|].
  destruct (NewPCPInstanceMetric_loop t vals order ∅) as [e|mvals] eqn:Hl;
    [discriminate|].
  intros [= <-].
  pose proof (loop_inr _ _ _ _ _ Hl) as Hall.
  destruct (loop_ok (W:=W) t vals order ∅ Hall) as (mvals' & Hl' & Hlook).
  rewrite Hl in Hl'. injection Hl' as <-.
  assert (Hlook' : ∀ n, mvals !! n =
            if decide (n ∈ indom_instances indom)
            then (λ v, newinstanceValue (resolve t v)) <$> vals !! n else None).
  { intros n. rewrite Hlook.
    destruct (decide (n ∈ order)) as [Hn|Hn].
    - rewrite decide_True; [done|]. by apply (range_order_elem indom order).
    - rewrite decide_False; [done|]. by rewrite <- (range_order_elem indom order). }
  split; [|done]. unfold instance_inv, im_t. cbn.
  split; [by apply newPCPMetricDesc_type in Hd|]. split; [done|]. split.
  - apply set_eq. intros n. rewrite elem_of_dom, Hlook'.
    destruct (decide (n ∈ indom_instances indom)) as [Hn|Hn].
    + pose proof (proj2 (range_order_elem indom order n Ho) Hn) as Hn'.
      destruct (Hall n Hn') as (v & -> & _). cbn. split; [done|by eexists].
    + split; [by intros [? [=]]|done].
  - intros n iv. rewrite Hlook'.
    destruct (decide (n ∈ indom_instances indom)) as [Hn|Hn]; [|done].
    apply (range_order_elem indom order) in Hn; [|done].
    destruct (Hall n Hn) as (v & -> & Hc). cbn. intros [= <-]. cbn.
    by apply resolve_stored_as.
Qed.
End MoreInstanceProperties.

(** X10: an instance metric built by [NewPCPInstanceMetric] has one slot
    per instance of its domain and no other, and keeps them through any
    sequence of [SetInstance], [MustSetInstance] and hook wirings; so
    [ValInstance] and [SetInstance] never panic on it, [ValInstance]
    returns [UnknownInstance] exactly for the names outside the domain, and
    the value it returns for an instance is one the metric's type
    accepts. *)
Theorem instance_metric_keeps_its_slots `{Env} {W : Type} (order : list string)
    (vals : gmap string value) (name : string) (indom : PCPInstanceDomain)
    (t : MetricType) (sem : MetricSemantics) (u : MetricUnit) (desc : list string)
    (m : PCPInstanceMetric W) (w : W) (calls : list (instance_call W)) :
  range_order indom order →
  NewPCPInstanceMetric order vals name indom t sem u desc = inr m →
  dom (im_vals (obj (do_instance_calls calls (init_store m w))))
    = indom_instances indom ∧
  (∀ n, ∃ x e,
     PCPInstanceMetric_ValInstance n (do_instance_calls calls (init_store m w))
       = (Ret (x, e), do_instance_calls calls (init_store m w)) ∧
     (n ∈ indom_instances indom → e = None ∧ IsCompatible t x = true) ∧
     (n ∉ indom_instances indom → e = Some (UnknownInstance n) ∧ x = VNil)) ∧
  (∀ n v, returned
            (PCPInstanceMetric_SetInstance n v
               (do_instance_calls calls (init_store m w))).1 = true).
Proof.
  intros Ho Hnew.
  destruct (New_instance_inv _ _ _ _ _ _ _ _ m Ho Hnew) as [Hinv0 _].
  pose proof (do_instance_calls_inv t indom calls (init_store m w) Hinv0) as Hinv.
  set (s' := do_instance_calls calls (init_store m w)) in *.
  destruct Hinv as (Ht & Hd & Hdom & Hty).
  split; [done|]. split.
  - intros n. destruct (decide (n ∈ indom_instances indom)) as [Hn|Hn].
    + assert (Hs : is_Some (im_vals (obj s') !! n)) by (apply elem_of_dom; by rewrite Hdom).
      destruct Hs as [iv Hiv].
      exists (iv_val iv), None. split; [|split; [|done]].
      * apply ValInstance_known; [|done]. rewrite Hd. by apply bool_decide_eq_true.
      * intros _. split; [done|]. by apply stored_as_compatible, (Hty n).
    + exists VNil, (Some (UnknownInstance n)). split; [|split; [done|done]].
      apply ValInstance_unknown. rewrite Hd. by apply bool_decide_eq_false.
  - intros n v.
    destruct (IsCompatible (im_t (obj s')) v) eqn:Hc;
      [|by rewrite SetInstance_incompatible].
    destruct (HasInstance (im_indom (obj s')) n) eqn:Hi;
      [|by rewrite SetInstance_unknown].
    assert (Hs : is_Some (im_vals (obj s') !! n)).
    { apply elem_of_dom. rewrite Hdom, <- Hd. by apply bool_decide_eq_true in Hi. }
    destruct Hs as [iv Hiv].
    destruct (iface_eqb (iv_val iv) (resolve (im_t (obj s')) v)) eqn:Heq;
      [by rewrite (SetInstance_unchanged s' n v iv)|].
    destruct (iv_update iv) as [u0|] eqn:Hu.
    + rewrite (SetInstance_hook s' n v iv u0) by done. cbn. by destruct (u0 _ _).1.
    + by rewrite (SetInstance_no_hook s' n v iv).
Qed.

Lemma instance_metric_keeps_its_slots_witness :
  ∃ m, @NewPCPInstanceMetric nat example_env (elements (indom_instances example_indom))
         example_vals "disk.reads" example_indom Int32Type CounterSemantics
         (UCount OneUnit) [] = inr m ∧
       returned
         (PCPInstanceMetric_SetInstance "sdz" (VInt 1)
            (do_instance_calls
               [ICallSet "sda" (VInt 9); ICallWireHook "sdb" (Some failing_hook);
                ICallMustSet "sdb" (VInt 1)]
               (init_store m 0%nat))).1 = true.
Proof.
  assert (Hnew : ∃ m, @NewPCPInstanceMetric nat example_env
                        (elements (indom_instances example_indom)) example_vals
                        "disk.reads" example_indom Int32Type CounterSemantics
                        (UCount OneUnit) [] = inr m)
    by (eexists; vm_compute; reflexivity).
  destruct Hnew as [m Hm]. exists m. split; [exact Hm|].
  destruct (@instance_metric_keeps_its_slots example_env nat
              (elements (indom_instances example_indom)) example_vals "disk.reads"
              example_indom Int32Type CounterSemantics (UCount OneUnit) [] m 0%nat
              [ICallSet "sda" (VInt 9); ICallWireHook "sdb" (Some failing_hook);
               ICallMustSet "sdb" (VInt 1)])
    as (_ & _ & Hset).
  - unfold range_order. reflexivity.
  - exact Hm.
  - apply Hset.
Defined.

(** X11: [SetInstance] on one instance leaves the slot of every other
    instance, the descriptor and the domain of the metric as they were,
    whatever it returns. *)
Theorem SetInstance_frame {W : Type} (s : store W (PCPInstanceMetric W))
    (n n' : string) (v : value) :
  n' ≠ n →
  im_vals (obj (PCPInstanceMetric_SetInstance n v s).2) !! n' = im_vals (obj s) !! n' ∧
  im_desc (obj (PCPInstanceMetric_SetInstance n v s).2) = im_desc (obj s) ∧
  im_indom (obj (PCPInstanceMetric_SetInstance n v s).2) = im_indom (obj s).
Proof.
  intros Hne.
  destruct (SetInstance_object_cases s n v) as [->|(iv & _ & _ & _ & _ & ->)]; [done|].
  cbn. by rewrite lookup_insert_ne.
Qed.

Lemma SetInstance_frame_witness :
  im_vals (obj (PCPInstanceMetric_SetInstance "sda" (VInt 9) example_instances).2)
    !! "sdb"%string
  = Some {| iv_val := VInt32 7; iv_update := Some counting_hook |}.
Proof.
  destruct (SetInstance_frame example_instances "sda" "sdb" (VInt 9)) as [Hf _].
  - discriminate.
  - rewrite Hf. vm_compute. reflexivity.
Defined.

(** X12: after a [SetInstance] that returned no error, [ValInstance] of
    the same instance returns, without error, a value equal ([==]) to the
    resolved one, unless that is a NaN; outside the floats it is the
    resolved value itself. *)
Theorem SetInstance_then_ValInstance {W : Type} (s : store W (PCPInstanceMetric W))
    (n : string) (v : value) :
  (PCPInstanceMetric_SetInstance n v s).1 = Ret None →
  value_is_nan (resolve (im_t (obj s)) v) = false →
  ∃ x, PCPInstanceMetric_ValInstance n (PCPInstanceMetric_SetInstance n v s).2
         = (Ret (x, None), (PCPInstanceMetric_SetInstance n v s).2) ∧
       iface_eqb x (resolve (im_t (obj s)) v) = true ∧
       (is_float_value x = false → x = resolve (im_t (obj s)) v).
Proof.
  intros Hok Hnan.
  destruct (IsCompatible (im_t (obj s)) v) eqn:Hc;
    [|by rewrite SetInstance_incompatible in Hok].
  destruct (HasInstance (im_indom (obj s)) n) eqn:Hi;
    [|by rewrite SetInstance_unknown in Hok].
  destruct (im_vals (obj s) !! n) as [iv|] eqn:Hv;
    [|by rewrite SetInstance_no_slot in Hok].
  assert (Hres : ∃ iv', im_vals (obj (PCPInstanceMetric_SetInstance n v s).2) !! n
                          = Some iv' ∧
                        im_indom (obj (PCPInstanceMetric_SetInstance n v s).2)
                          = im_indom (obj s) ∧
                        iface_eqb (iv_val iv') (resolve (im_t (obj s)) v) = true).
  { destruct (iface_eqb (iv_val iv) (resolve (im_t (obj s)) v)) eqn:Heq.
    { rewrite (SetInstance_unchanged s n v iv) by done. by exists iv. }
    destruct (iv_update iv) as [u|] eqn:Hu.
    - rewrite (SetInstance_hook s n v iv u) in * by done. cbn in *.
      destruct (u _ _).1; [discriminate|]. cbn.
      eexists. rewrite lookup_insert_eq. split; [done|]. split; [done|].
      cbn. by apply iface_eqb_refl.
    - rewrite (SetInstance_no_hook s n v iv) by done. cbn.
      eexists. rewrite lookup_insert_eq. split; [done|]. split; [done|].
      cbn. by apply iface_eqb_refl. }
  destruct Hres as (iv' & Hv' & Hd' & Heq').
  exists (iv_val iv'). split; [|split; [done|]].
  - apply ValInstance_known; [by rewrite Hd'|done].
  - intros Hf. by apply iface_eqb_eq.
Qed.

Lemma SetInstance_then_ValInstance_witness :
  ∃ x, PCPInstanceMetric_ValInstance "sda"
         (PCPInstanceMetric_SetInstance "sda" (VInt 9) example_instances).2
       = (Ret (x, None),
          (PCPInstanceMetric_SetInstance "sda" (VInt 9) example_instances).2) ∧
       iface_eqb x (VInt32 9) = true.
Proof.
  destruct (SetInstance_then_ValInstance example_instances "sda" (VInt 9))
    as (x & Hx & Heq & _).
  - vm_compute. reflexivity.
  - reflexivity.
  - exists x. split; [exact Hx|exact Heq].
Defined.

(** X13: [SetInstance] checks the value before the instance: an
    incompatible value gives [IncompatibleType] even for a name outside
    the domain; a compatible value for such a name gives [UnknownInstance];
    a name of the domain without a slot makes it panic; on a slot it
    returns an error exactly when the slot's hook, invoked on the resolved
    value, fails.  Whenever it does not return nil the metric object is
    what it was. *)
Theorem SetInstance_outcome {W : Type} (s : store W (PCPInstanceMetric W))
    (n : string) (v : value) :
  (IsCompatible (im_t (obj s)) v = false →
     PCPInstanceMetric_SetInstance n v s = (Ret (Some IncompatibleType), s)) ∧
  (IsCompatible (im_t (obj s)) v = true →
   HasInstance (im_indom (obj s)) n = false →
     PCPInstanceMetric_SetInstance n v s = (Ret (Some (UnknownInstance n)), s)) ∧
  (IsCompatible (im_t (obj s)) v = true →
   HasInstance (im_indom (obj s)) n = true → im_vals (obj s) !! n = None →
     PCPInstanceMetric_SetInstance n v s = (Panic "nil pointer dereference", s)) ∧
  (IsCompatible (im_t (obj s)) v = true →
   HasInstance (im_indom (obj s)) n = true → is_Some (im_vals (obj s) !! n) →
     ∃ err, (PCPInstanceMetric_SetInstance n v s).1 = Ret err ∧
       (is_Some err ↔
          hook_failed_on s (PCPInstanceMetric_SetInstance n v s).2
            (resolve (im_t (obj s)) v))) ∧
  ((PCPInstanceMetric_SetInstance n v s).1 ≠ Ret None →
     obj (PCPInstanceMetric_SetInstance n v s).2 = obj s).
Proof.
  split; [apply SetInstance_incompatible|].
  split; [apply SetInstance_unknown|].
  split; [apply SetInstance_no_slot|]. split.
  - intros Hc Hi [iv Hv]. unfold hook_failed_on.
    destruct (iface_eqb (iv_val iv) (resolve (im_t (obj s)) v)) eqn:Heq.
    { rewrite (SetInstance_unchanged s n v iv) by done. cbn.
      exists None. split; [done|]. split; [by intros [? [=]]|].
      intros [e He]. by apply log_not_grown in He. }
    destruct (iv_update iv) as [u|] eqn:Hu.
    + rewrite (SetInstance_hook s n v iv u) by done. cbn.
      destruct (u _ _).1 as [e|]; cbn.
      * exists (Some e). split; [done|]. split; [by exists e|by eexists].
      * exists None. split; [done|]. split; [by intros [? [=]]|].
        intros [e He]. apply log_grown_inj in He. discriminate.
    + rewrite (SetInstance_no_hook s n v iv) by done. cbn.
      exists None. split; [done|]. split; [by intros [? [=]]|].
      intros [e He]. by apply log_not_grown in He.
  - intros Herr.
    destruct (SetInstance_object_cases s n v) as [->|(iv & _ & _ & _ & Hok & _)];
      [done|]. by rewrite Hok in Herr.
Qed.

Lemma SetInstance_outcome_witness :
  PCPInstanceMetric_SetInstance "nvme0" (VString "x") example_instances
    = (Ret (Some IncompatibleType), example_instances) ∧
  PCPInstanceMetric_SetInstance "nvme0" (VInt 1) example_instances
    = (Ret (Some (UnknownInstance "nvme0")), example_instances).
Proof.
  destruct (SetInstance_outcome example_instances "nvme0" (VString "x")) as (Hbad & _).
  destruct (SetInstance_outcome example_instances "nvme0" (VInt 1)) as (_ & Hunk & _).
  split.
  - apply Hbad. reflexivity.
  - apply Hunk; [reflexivity | vm_compute; reflexivity].
Defined.

(* ===================================================================== *)
(** * More properties: counters *)
(* ===================================================================== *)

Lemma to_int_congr (w a b : Z) :
  a mod 2 ^ w = b mod 2 ^ w → to_int w a = to_int w b.
Proof.
  intros Hab. unfold to_int.
  by rewrite (Zplus_mod a), (Zplus_mod b), Hab.
Qed.

Lemma to_int_mod (w a : Z) : 0 < w → to_int w a mod 2 ^ w = a mod 2 ^ w.
Proof.
  intros Hw. unfold to_int.
  assert (Hpos : 0 < 2 ^ w) by (apply Z.pow_pos_nonneg; lia).
  rewrite Zminus_mod, Z.mod_mod by lia. rewrite <- Zminus_mod.
  f_equal. lia.
Qed.

(** Adding [val] and then [-val], each with wrap-around, gives back [z]. *)
Lemma to_int_add_opp (z val : Z) :
  in_int 64 z → to_int 64 (to_int 64 (z + val) + to_int 64 (- val)) = z.
Proof.
  intros Hz. rewrite <- (to_int_id 64 z) at 2 by (done || lia).
  apply to_int_congr.
  rewrite Zplus_mod, !to_int_mod by lia. rewrite <- Zplus_mod.
  f_equal. lia.
Qed.

(** The errors of the descriptor constructor are those of its three
    checks. *)
Lemma newPCPMetricDesc_error `{Env} (n : string) (t : MetricType)
    (s : MetricSemantics) (u : MetricUnit) (desc : list string) (e : error) :
  newPCPMetricDesc n t s u desc = inl e →
  ¬ valid_desc_args n desc ∧
  (e = EmptyName ∨ e = NameTooLong ∨ e = TooManyDescriptions).
Proof.
  unfold newPCPMetricDesc, valid_desc_args.
  destruct (String.eqb_spec n "") as [->|Hn].
  { intros [= <-]. split; [by intros [? _]|by left]. }
  destruct (Z.gtb_spec (len_string n) StringLength).
  { intros [= <-]. split; [intros (_ & ? & _); lia|by right; left]. }
  destruct (Z.gtb_spec (len_slice desc) 2).
  { intros [= <-]. split; [intros (_ & _ & ?); lia|by right; right]. }
  discriminate.
Qed.

Section MoreCounterProperties.
Context {W : Type}.
Implicit Types (s : store W (PCPSingletonMetric W)).

(** On a counter whose hook does not fail, the counter's [Set] succeeds and
    the counter then holds the value set. *)
Lemma Counter_Set_reliable s (z x : Z) :
  counter_at s z → hook_reliable (obj s) →
  (PCPCounter_Set x s).1 = Ret None ∧
  counter_at (PCPCounter_Set x s).2 x ∧
  hook_reliable (obj (PCPCounter_Set x s).2).
Proof.
  intros [Ht Hv] Hrel. unfold PCPCounter_Set.
  destruct (Set_reliable s (VInt64 x)) as (Hok & Hd & Hu & Hval);
    [by rewrite Ht|done|].
  split; [done|]. split.
  - split; [unfold sm_t; by rewrite Hd|].
    rewrite Ht in Hval. destruct Hval as [->|[-> Heq]]; [done|].
    rewrite Hv in *. cbn in Heq. apply Z.eqb_eq in Heq. by subst.
  - unfold hook_reliable. by rewrite Hu.
Qed.

Lemma Inc_reliable s (z val : Z) :
  counter_at s z → hook_reliable (obj s) →
  (PCPCounter_Inc val s).1 = Ret None ∧
  counter_at (PCPCounter_Inc val s).2 (to_int 64 (z + val)) ∧
  hook_reliable (obj (PCPCounter_Inc val s).2).
Proof.
  intros Hc Hrel. rewrite Inc_two_accesses.
  rewrite (Val_int64 s z) by apply Hc.
  by apply (Counter_Set_reliable s z).
Qed.

Lemma Up_reliable s (z : Z) :
  counter_at s z → hook_reliable (obj s) →
  (PCPCounter_Up s).1 = Ret tt ∧
  counter_at (PCPCounter_Up s).2 (to_int 64 (z + 1)) ∧
  hook_reliable (obj (PCPCounter_Up s).2).
Proof.
  intros Hc Hrel. destruct (Inc_reliable s z 1 Hc Hrel) as (Hok & Hat & Hrel').
  unfold PCPCounter_Up, PCPCounter_MustInc, mbind, M_bind, bind.
  destruct (PCPCounter_Inc 1 s) as [[[e|]|r] s']; cbn in *; done.
Qed.
End MoreCounterProperties.

(** X14: [NewPCPCounter] never fails on its value: it fails exactly when
    the name or the descriptions are invalid, with the descriptor's error,
    and otherwise builds a counter of type [Int64Type] with counter
    semantics and the count unit, holding the initial value, without a
    hook. *)
Theorem NewPCPCounter_outcome `{Env} {W : Type} (val : Z) (name : string)
    (desc : list string) :
  (valid_desc_args name desc →
     ∃ c, @NewPCPCounter W _ val name desc = inr c ∧
          ∀ w, PCPCounter_Val (init_store (counter_metric c) w)
                 = (Ret val, init_store (counter_metric c) w) ∧
               sm_t (counter_metric c) = Int64Type ∧
               sm_update (counter_metric c) = None ∧
               Semantics (sm_desc (counter_metric c)) = CounterSemantics ∧
               Unit (sm_desc (counter_metric c)) = UCount OneUnit) ∧
  (∀ e, @NewPCPCounter W _ val name desc = inl e →
        ¬ valid_desc_args name desc ∧
        (e = EmptyName ∨ e = NameTooLong ∨ e = TooManyDescriptions)).
Proof.
  unfold NewPCPCounter, NewPCPSingletonMetric. cbn. split.
  - intros (Hn & Hl & Hd). rewrite newPCPMetricDesc_ok by done.
    eexists. split; [done|]. intros w. cbn. repeat split.
  - intros e He.
    destruct (newPCPMetricDesc name Int64Type CounterSemantics (UCount OneUnit) desc)
      as [e'|d] eqn:Hd; [|discriminate].
    injection He as <-. by apply newPCPMetricDesc_error in Hd.
Qed.

Lemma NewPCPCounter_outcome_witness :
  ∃ c, @NewPCPCounter nat example_env 42 "requests" [] = inr c ∧
       PCPCounter_Val (init_store (counter_metric c) 0%nat)
         = (Ret 42, init_store (counter_metric c) 0%nat).
Proof.
  destruct (@NewPCPCounter_outcome example_env nat 42 "requests" []) as [Hok _].
  destruct Hok as (c & Hc & Hval).
  - split; [discriminate|]. split; vm_compute; discriminate.
  - exists c. split; [exact Hc|]. apply (Hval 0%nat).
Defined.

(** X15: on a counter whose hook does not fail, [Inc] never fails and adds
    its argument modulo 2^64: a negative increment lowers the counter and
    an overflow wraps around; [Dec] adds the negated argument the same
    way. *)
Theorem Inc_adds_modulo {W : Type} (s : store W (PCPSingletonMetric W)) (z val : Z) :
  counter_at s z → hook_reliable (obj s) →
  (PCPCounter_Inc val s).1 = Ret None ∧
  PCPCounter_Val (PCPCounter_Inc val s).2
    = (Ret (to_int 64 (z + val)), (PCPCounter_Inc val s).2) ∧
  (PCPCounter_Dec val s).1 = Ret None ∧
  PCPCounter_Val (PCPCounter_Dec val s).2
    = (Ret (to_int 64 (z + to_int 64 (- val))), (PCPCounter_Dec val s).2).
Proof.
  intros Hc Hrel.
  destruct (Inc_reliable s z val Hc Hrel) as (Hok & [_ Hv] & _).
  destruct (Inc_reliable s z (to_int 64 (- val)) Hc Hrel) as (Hok' & [_ Hv'] & _).
  split; [done|]. split; [by apply Val_int64|]. split; [done|].
  by apply Val_int64.
Qed.

Lemma Inc_adds_modulo_witness :
  PCPCounter_Val
    (PCPCounter_Inc 1 (example_singleton (VInt64 MaxInt64) (Some counting_hook))).2
  = (Ret MinInt64,
     (PCPCounter_Inc 1 (example_singleton (VInt64 MaxInt64) (Some counting_hook))).2).
Proof.
  destruct (Inc_adds_modulo (example_singleton (VInt64 MaxInt64) (Some counting_hook))
              MaxInt64 1) as (_ & Hv & _).
  - split; reflexivity.
  - intros u [= <-] x w. reflexivity.
  - exact Hv.
Defined.

(** X16: on a counter whose hook does not fail, [Dec(val)] undoes
    [Inc(val)], for every [val] and across overflow. *)
Theorem Inc_then_Dec {W : Type} (s : store W (PCPSingletonMetric W)) (z val : Z) :
  counter_at s z → hook_reliable (obj s) → in_int 64 z →
  (PCPCounter_Dec val (PCPCounter_Inc val s).2).1 = Ret None ∧
  PCPCounter_Val (PCPCounter_Dec val (PCPCounter_Inc val s).2).2
    = (Ret z, (PCPCounter_Dec val (PCPCounter_Inc val s).2).2).
Proof.
  intros Hc Hrel Hz.
  destruct (Inc_reliable s z val Hc Hrel) as (_ & Hc1 & Hrel1).
  unfold PCPCounter_Dec.
  destruct (Inc_reliable _ _ (to_int 64 (- val)) Hc1 Hrel1) as (Hok & [_ Hv] & _).
  split; [done|]. apply Val_int64. by rewrite Hv, to_int_add_opp.
Qed.

Lemma Inc_then_Dec_witness :
  PCPCounter_Val
    (PCPCounter_Dec 5
       (PCPCounter_Inc 5 (example_singleton (VInt64 MaxInt64) None)).2).2
  = (Ret MaxInt64,
     (PCPCounter_Dec 5
        (PCPCounter_Inc 5 (example_singleton (VInt64 MaxInt64) None)).2).2).
Proof.
  apply (Inc_then_Dec (example_singleton (VInt64 MaxInt64) None) MaxInt64 5).
  - split; reflexivity.
  - intros u [=].
  - unfold in_int, MaxInt64. lia.
Defined.

Lemma do_calls_Up {W : Type} (n : nat) (s : store W (PCPSingletonMetric W)) (z : Z) :
  counter_at s z → hook_reliable (obj s) →
  in_int 64 z → in_int 64 (z + Z.of_nat n) →
  counter_at (do_calls (replicate n CallUp) s) (z + Z.of_nat n).
Proof.
  revert s z. induction n as [|n IH]; intros s z Hc Hrel Hz Hzn.
  { cbn. by rewrite Z.add_0_r. }
  cbn [replicate do_calls fold_left do_call store_after].
  destruct (Up_reliable s z Hc Hrel) as (_ & Hc' & Hrel').
  unfold in_int in *.
  rewrite to_int_id in Hc' by (unfold in_int; lia).
  replace (z + Z.of_nat (S n)) with ((z + 1) + Z.of_nat n) by lia.
  apply IH; [done..| |]; unfold in_int; lia.
Qed.

(** X17: on a counter whose hook does not fail, [n] calls of [Up] one
    after the other add exactly [n], as long as the sum stays an
    [int64]. *)
Theorem Up_n_times {W : Type} (n : nat) (s : store W (PCPSingletonMetric W)) (z : Z) :
  counter_at s z → hook_reliable (obj s) →
  in_int 64 z → in_int 64 (z + Z.of_nat n) →
  PCPCounter_Val (do_calls (replicate n CallUp) s)
    = (Ret (z + Z.of_nat n), do_calls (replicate n CallUp) s).
Proof.
  intros Hc Hrel Hz Hzn. apply Val_int64. by apply do_calls_Up.
Qed.

Lemma Up_n_times_witness :
  PCPCounter_Val
    (do_calls (replicate 10 CallUp) (example_singleton (VInt64 5) (Some counting_hook)))
  = (Ret 15,
     do_calls (replicate 10 CallUp) (example_singleton (VInt64 5) (Some counting_hook))).
Proof.
  apply (Up_n_times 10 (example_singleton (VInt64 5) (Some counting_hook)) 5).
  - split; reflexivity.
  - intros u [= <-] x w. reflexivity.
  - unfold in_int. lia.
  - unfold in_int. lia.
Defined.

(* ===================================================================== *)
(** * More properties: what concurrent callers of [Up] can do *)
(* ===================================================================== *)

Lemma returned_count_le (l : list up_pc) : (returned_count l ≤ length l)%nat.
Proof.
  unfold returned_count. induction l as [|pc l IH]; cbn; [lia|].
  destruct pc; cbn; lia.
Qed.

Lemma returned_count_split (l : list up_pc) (i : nat) (pc : up_pc) :
  l !! i = Some pc →
  returned_count l =
    (returned_count (take i l) + returned_weight pc + returned_count (drop (S i) l))%nat.
Proof.
  intros Hi. rewrite <- (take_drop_middle l i pc Hi) at 1.
  unfold returned_count. rewrite sum_list_with_app. cbn. lia.
Qed.

Lemma returned_count_insert (l : list up_pc) (i : nat) (pc pc' : up_pc) :
  l !! i = Some pc →
  (returned_count (<[i := pc']> l) + returned_weight pc
   = returned_count l + returned_weight pc')%nat.
Proof.
  intros Hi. rewrite (returned_count_split l i pc Hi).
  assert (Hi' : <[i := pc']> l !! i = Some pc').
  { apply list_lookup_insert_eq. by apply lookup_lt_Some in Hi. }
  rewrite (returned_count_split _ i pc' Hi').
  rewrite take_insert_ge, drop_insert_lt by lia. lia.
Qed.

Lemma returned_count_pending (l : list up_pc) (i : nat) (pc : up_pc) :
  l !! i = Some pc → returned_weight pc = 0%nat →
  (returned_count l < length l)%nat.
Proof.
  intros Hi Hw. rewrite (returned_count_split l i pc Hi), Hw.
  pose proof (returned_count_le (take i l)).
  pose proof (returned_count_le (drop (S i) l)).
  apply lookup_lt_Some in Hi.
  rewrite length_take, length_drop in *. lia.
Qed.

Lemma returned_count_replicate (n : nat) (pc : up_pc) :
  returned_count (replicate n pc) = (n * returned_weight pc)%nat.
Proof. unfold returned_count. induction n as [|n IH]; cbn; [done|]. lia. Qed.

Section UpInvariant.
Context {W : Type}.
Implicit Types (c : config W).

Lemma spawn_up_inv (s : store W (PCPSingletonMetric W)) (z : Z) (n : nat) :
  counter_at s z → hook_reliable (obj s) → up_inv z n (spawn n s).
Proof.
  intros Hc Hrel. unfold up_inv, spawn. cbn.
  rewrite returned_count_replicate. cbn. rewrite Nat.mul_0_r.
  split; [by rewrite length_replicate|]. split; [done|]. split.
  - apply Forall_forall. intros pc Hpc. by apply elem_of_replicate in Hpc as [-> _].
  - exists z. split; [done|]. split; lia.
Qed.

Lemma step_up_inv (z : Z) (n i : nat) c c' :
  in_int 64 z → in_int 64 (z + Z.of_nat n) →
  up_inv z n c → step i c = Some c' → up_inv z n c'.
Proof.
  intros Hz Hzn (Hlen & Hrel & Hall & x & Hat & Hx & Hpos) Hstep.
  unfold step in Hstep.
  destruct (callers c !! i) as [pc|] eqn:Hi; [|discriminate]. cbn in Hstep.
  pose proof (Forall_lookup_1 _ _ _ _ Hall Hi) as Hpc.
  destruct pc as [|v| |]; cbn in Hstep; [| |discriminate..].
  - (* the caller reads the counter *)
    rewrite (Val_int64 (shared c) x) in Hstep by apply Hat. cbn in Hstep.
    injection Hstep as <-. unfold up_inv. cbn [shared callers].
    pose proof (returned_count_insert (callers c) i UpCalled (UpLoaded x) Hi) as Hk.
    cbn in Hk. rewrite !Nat.add_0_r in Hk. rewrite Hk.
    split; [by rewrite length_insert|]. split; [done|]. split.
    + by apply Forall_insert.
    + by exists x.
  - (* the caller writes what it read, plus one *)
    pose proof (returned_count_pending (callers c) i (UpLoaded v) Hi eq_refl) as Hlt.
    pose proof (returned_count_insert (callers c) i (UpLoaded v) UpReturned Hi) as Hk.
    cbn in Hk. rewrite Nat.add_0_r in Hk.
    unfold Inc_commit in Hstep.
    destruct (Counter_Set_reliable (shared c) x (to_int 64 (v + 1)) Hat Hrel)
      as (Hok & Hat' & Hrel').
    unfold in_int in *.
    rewrite to_int_id in * by (unfold in_int; lia).
    destruct (PCPCounter_Set (v + 1) (shared c)) as [[[e|]|r] s'];
      cbn in Hok, Hat', Hrel', Hstep; try discriminate.
    injection Hstep as <-. unfold up_inv. cbn [shared callers]. rewrite Hk.
    split; [by rewrite length_insert|]. split; [done|]. split.
    + apply Forall_insert; [|done].
      eapply Forall_impl; [exact Hall|]. intros [|v'| |]; cbn; try done. lia.
    + exists (v + 1). split; [done|]. split; lia.
Qed.

Lemma run_up_inv (z : Z) (n : nat) (sched : list nat) c c' :
  in_int 64 z → in_int 64 (z + Z.of_nat n) →
  up_inv z n c → run sched c = Some c' → up_inv z n c'.
Proof.
  intros Hz Hzn. revert c. induction sched as [|i sched IH]; intros c Hinv Hrun.
  { cbn in Hrun. by injection Hrun as <-. }
  cbn in Hrun. destruct (step i c) as [c1|] eqn:Hs; [|discriminate]. cbn in Hrun.
  apply (IH c1); [|done]. by apply (step_up_inv z n i c).
Qed.
End UpInvariant.

(** X18: whatever the schedule, [n] concurrent callers of [Up] on a
    counter that holds [z] and whose hook does not fail never panic, and
    the counter stays between [z] and [z] plus the number of callers that
    have returned; once all [n] have returned it holds at least [z + 1]
    and at most [z + n] (as long as [z + n] is an [int64]). *)
Theorem concurrent_Up_bounds {W : Type} (s : store W (PCPSingletonMetric W))
    (z : Z) (n : nat) (sched : list nat) (cfg : config W) :
  counter_at s z → hook_reliable (obj s) →
  in_int 64 z → in_int 64 (z + Z.of_nat n) →
  run sched (spawn n s) = Some cfg →
  (UpPanicked ∉ callers cfg) ∧
  ∃ x, PCPCounter_Val (shared cfg) = (Ret x, shared cfg) ∧
       z <= x <= z + Z.of_nat (returned_count (callers cfg)) ∧
       (callers cfg = replicate n UpReturned → (0 < n)%nat →
        z + 1 <= x <= z + Z.of_nat n).
Proof.
  intros Hc Hrel Hz Hzn Hrun.
  destruct (run_up_inv z n sched _ cfg Hz Hzn (spawn_up_inv s z n Hc Hrel) Hrun)
    as (Hlen & _ & Hall & x & Hat & Hx & Hpos).
  split.
  - intros Hin. rewrite Forall_forall in Hall. by apply (Hall _ Hin).
  - exists x. split; [apply Val_int64; apply Hat|]. split; [done|].
    intros Hdone Hn. rewrite Hdone, returned_count_replicate in *. cbn in *.
    rewrite Nat.mul_1_r in *. split; [by apply Hpos|lia].
Qed.

Lemma concurrent_Up_bounds_witness :
  ∃ cfg x,
    run (reads_then_writes 10)
      (spawn 10 (init_store (counter_metric example_counter) 0%nat)) = Some cfg ∧
    PCPCounter_Val (shared cfg) = (Ret x, shared cfg) ∧ 1 <= x <= 10.
Proof.
  assert (Hrun : ∃ cfg, run (reads_then_writes 10)
                   (spawn 10 (init_store (counter_metric example_counter) 0%nat))
                 = Some cfg ∧ callers cfg = replicate 10 UpReturned)
    by (eexists; split; [vm_compute; reflexivity|reflexivity]).
  destruct Hrun as (cfg & Hrun & Hdone).
  destruct (concurrent_Up_bounds (init_store (counter_metric example_counter) 0%nat)
              0 10 (reads_then_writes 10) cfg) as (_ & x & Hx & _ & Hb).
  - split; reflexivity.
  - intros u [=].
  - unfold in_int. lia.
  - unfold in_int. cbn. lia.
  - exact Hrun.
  - exists cfg, x. split; [exact Hrun|]. split; [exact Hx|].
    apply Hb; [exact Hdone|lia].
Defined.

(* ===================================================================== *)
(** * More properties: the instance-domain registry *)
(* ===================================================================== *)

Module RegistryFacts.
Import InstanceDomains InstanceDomainsFacts.

Section Facts.
Context `{Env}.
Implicit Types (st : state) (name : string).

(** [AddInstance], one case after the other. *)
Lemma AddInstance_dangling (p : option nat) name st :
  p ≫= (heap st !!.) = None →
  AddInstance p name st = (Panic "nil pointer dereference", st).
Proof. unfold AddInstance. by intros ->. Qed.

Lemma AddInstance_duplicate (a : nat) name st (d : InstanceDomain) (ins : Instance) :
  heap st !! a = Some d → instances d !! getHash name = Some ins →
  AddInstance (Some a) name st = (Ret (Some DuplicateInstance), st).
Proof. unfold AddInstance. cbn. intros -> Hi. cbv zeta. by rewrite Hi. Qed.

Lemma AddInstance_new (a : nat) name st (d : InstanceDomain) :
  heap st !! a = Some d → instances d !! getHash name = None →
  AddInstance (Some a) name st =
    (Ret None,
     {| heap := <[a := {| id := id d; name := InstanceDomains.name d;
                          instances := <[getHash name := newInstance (getHash name) name a]>
                                         (instances d);
                          shortHelpText := shortHelpText d;
                          longHelpText := longHelpText d |}]> (heap st);
        instanceDomains := instanceDomains st |}).
Proof. unfold AddInstance. cbn. intros -> Hi. cbv zeta. by rewrite Hi. Qed.

Lemma registry_wf_declared : registry_wf declared.
Proof. split; [done|]. intros a d h ins Ha. cbn in Ha. by rewrite lookup_nil in Ha. Qed.

Lemma registry_wf_make st : registry_wf st → registry_wf (make_instanceDomains st).
Proof.
  intros [_ Hins]. split; [|done].
  intros m h a [= <-] Hm. by rewrite lookup_empty in Hm.
Qed.

Lemma registry_wf_New name (sd ld : string) st :
  registry_wf st → registry_wf (NewInstanceDomain name sd ld st).2.
Proof.
  intros Hwf. pose proof Hwf as [Hreg Hins].
  destruct (registered name st) as [a|] eqn:Hr.
  { by rewrite (NewInstanceDomain_registered _ _ _ _ a). }
  destruct (instanceDomains st) as [m|] eqn:Hm;
    [|by rewrite NewInstanceDomain_nil].
  unfold registered in Hr. rewrite Hm in Hr. cbn in Hr.
  rewrite (NewInstanceDomain_fresh _ _ _ _ m) by done. cbn. split; cbn.
  - intros m' h a [= <-] Ha.
    apply lookup_insert_Some in Ha as [[<- <-]|[Hne Ha]].
    + eexists. split; [by apply list_lookup_middle|done].
    + destruct (Hreg m h a eq_refl Ha) as (d & Hd & Hid).
      exists d. split; [by apply lookup_app_l_Some|done].
  - intros a d h ins Ha Hi.
    apply lookup_app_Some in Ha as [Ha|[_ Ha]]; [by apply (Hins a d)|].
    apply list_lookup_singleton_Some in Ha as [_ <-]. cbn in Hi.
    by rewrite lookup_empty in Hi.
Qed.

Lemma registry_wf_Add (p : option nat) name st :
  registry_wf st → registry_wf (AddInstance p name st).2.
Proof.
  intros Hwf. pose proof Hwf as [Hreg Hins].
  destruct (p ≫= (heap st !!.)) as [d|] eqn:Hp;
    [|by rewrite AddInstance_dangling].
  destruct p as [a|]; [|done]. cbn in Hp.
  destruct (instances d !! getHash name) as [ins|] eqn:Hi.
  { by rewrite (AddInstance_duplicate a name st d ins). }
  rewrite (AddInstance_new a name st d) by done. cbn.
  pose proof (lookup_lt_Some _ _ _ Hp) as Hlt. split; cbn.
  - intros m h a' Hm Ha'.
    destruct (Hreg m h a' Hm Ha') as (d' & Hd' & Hid).
    destruct (decide (a' = a)) as [->|Hne].
    + rewrite Hp in Hd'. injection Hd' as <-.
      eexists. split; [by apply list_lookup_insert_eq|done].
    + exists d'. by rewrite list_lookup_insert_ne.
  - intros a' d' h ins Ha' Hl.
    destruct (decide (a' = a)) as [->|Hne].
    + rewrite list_lookup_insert_eq in Ha' by done. injection Ha' as <-. cbn in Hl.
      apply lookup_insert_Some in Hl as [[<- <-]|[_ Hl]]; [done|].
      by apply (Hins a d).
    + rewrite list_lookup_insert_ne in Ha' by done. by apply (Hins a' d').
Qed.

Lemma do_registry_calls_wf (cs : list registry_call) st :
  registry_wf st → registry_wf (do_registry_calls cs st).
Proof.
  revert st. induction cs as [|c cs IH]; intros st Hwf; [done|].
  cbn. apply IH. destruct c; cbn.
  - by apply registry_wf_make.
  - by apply registry_wf_New.
  - by apply registry_wf_Add.
Qed.
End Facts.

(** X19: whatever calls have been made since the start of the process —
    making the map, [NewInstanceDomain], [AddInstance], returned or
    panicked —, the address registered for a name is that of an allocated
    domain whose id is the hash of the name; the instances of that domain
    sit under their own ids and point back to it; and [AddInstance] on it
    does not panic. *)
Theorem registry_stays_well_formed `{Env} (cs : list registry_call)
    (name : string) (a : nat) :
  registered name (do_registry_calls cs declared) = Some a →
  ∃ d, heap (do_registry_calls cs declared) !! a = Some d ∧
       id d = getHash name ∧
       (∀ h ins, instances d !! h = Some ins → ins_id ins = h ∧ ins_indom ins = a) ∧
       (∀ iname, returned
                   (AddInstance (Some a) iname (do_registry_calls cs declared)).1
                 = true).
Proof.
  intros Hr.
  destruct (do_registry_calls_wf cs declared registry_wf_declared) as [Hreg Hins].
  unfold registered in Hr.
  destruct (instanceDomains (do_registry_calls cs declared)) as [m|] eqn:Hm;
    [|done].
  cbn in Hr. destruct (Hreg m _ a eq_refl Hr) as (d & Hd & Hid).
  exists d. split; [done|]. split; [done|].
  split; [intros h ins Hl; by apply (Hins a d h ins)|].
  intros iname. destruct (instances d !! getHash iname) as [ins|] eqn:Hi.
  - by rewrite (AddInstance_duplicate a iname _ d ins).
  - by rewrite (AddInstance_new a iname _ d).
Qed.

Lemma registry_stays_well_formed_witness :
  ∃ d, heap (@do_registry_calls example_env
               [RCallNew "disk" "" ""; RCallMake; RCallNew "disk" "disks" "";
                RCallAdd (Some 0%nat) "sda"; RCallAdd (Some 7%nat) "sdb";
                RCallNew "cpu" "" ""] declared) !! 0%nat = Some d ∧
       id d = @getHash example_env "disk".
Proof.
  destruct (@registry_stays_well_formed example_env
              [RCallNew "disk" "" ""; RCallMake; RCallNew "disk" "disks" "";
               RCallAdd (Some 0%nat) "sda"; RCallAdd (Some 7%nat) "sdb";
               RCallNew "cpu" "" ""] "disk" 0%nat)
    as (d & Hd & Hid & _).
  - vm_compute. reflexivity.
  - exists d. split; [exact Hd|exact Hid].
Defined.

(** X20: [AddInstance] on an allocated domain never panics; after it, an
    [AddInstance] of the same name, or of any name with the same hash,
    fails with [DuplicateInstance] and changes nothing; and [AddInstance]
    leaves the registry map and every other domain as they were. *)
Theorem AddInstance_then_duplicate `{Env} (a : nat) (name name' : string) (st : state) :
  is_Some (heap st !! a) → getHash name' = getHash name →
  ∃ e, (AddInstance (Some a) name st).1 = Ret e ∧
       (e = None ∨ (e = Some DuplicateInstance ∧ (AddInstance (Some a) name st).2 = st)) ∧
       AddInstance (Some a) name' (AddInstance (Some a) name st).2
         = (Ret (Some DuplicateInstance), (AddInstance (Some a) name st).2) ∧
       instanceDomains (AddInstance (Some a) name st).2 = instanceDomains st ∧
       (∀ a', a' ≠ a → heap (AddInstance (Some a) name st).2 !! a' = heap st !! a').
Proof.
  intros [d Hd] Hh.
  destruct (instances d !! getHash name) as [ins|] eqn:Hi.
  - rewrite (AddInstance_duplicate a name st d ins) by done. cbn.
    exists (Some DuplicateInstance). split; [done|]. split; [by right|].
    split; [|done].
    apply (AddInstance_duplicate a name' st d ins); [done|by rewrite Hh].
  - rewrite (AddInstance_new a name st d) by done. cbn.
    exists None. split; [done|]. split; [by left|]. split; [|split; [done|]].
    + eapply AddInstance_duplicate; cbn [heap].
      * apply list_lookup_insert_eq. by apply lookup_lt_Some in Hd.
      * cbn [instances]. rewrite Hh. apply lookup_insert_eq.
    + intros a' Hne. by rewrite list_lookup_insert_ne.
Qed.

Lemma AddInstance_then_duplicate_witness :
  @AddInstance example_env (Some 0%nat) "sda"
    (@AddInstance example_env (Some 0%nat) "sda"
       (@NewInstanceDomain example_env "disk" "" ""
          (make_instanceDomains declared)).2).2
  = (Ret (Some DuplicateInstance),
     (@AddInstance example_env (Some 0%nat) "sda"
        (@NewInstanceDomain example_env "disk" "" ""
           (make_instanceDomains declared)).2).2).
Proof.
  destruct (@AddInstance_then_duplicate example_env 0%nat "sda" "sda"
              (@NewInstanceDomain example_env "disk" "" ""
                 (make_instanceDomains declared)).2)
    as (e & _ & _ & Hdup & _).
  - vm_compute. eexists. reflexivity.
  - reflexivity.
  - exact Hdup.
Defined.

(** X21: a call of [NewInstanceDomain], for whatever name, leaves the
    domains registered before it where they were and as they were. *)
Theorem NewInstanceDomain_frame `{Env} (name name' sd ld : string) (st : state)
    (a : nat) (d : InstanceDomain) :
  registered name st = Some a → heap st !! a = Some d →
  registered name (NewInstanceDomain name' sd ld st).2 = Some a ∧
  heap (NewInstanceDomain name' sd ld st).2 !! a = Some d.
Proof.
  intros Hr Hd.
  destruct (registered name' st) as [a'|] eqn:Hr'.
  { by rewrite (NewInstanceDomain_registered _ _ _ _ a'). }
  unfold registered in *.
  destruct (instanceDomains st) as [m|] eqn:Hm; [|done]. cbn in Hr, Hr'.
  rewrite (NewInstanceDomain_fresh _ _ _ _ m) by done. cbn. split.
  - rewrite lookup_insert_ne; [done|]. intros Heq. rewrite Heq in Hr'. congruence.
  - by apply lookup_app_l_Some.
Qed.

Lemma NewInstanceDomain_frame_witness :
  registered (H:=example_env) "disk"
    (@NewInstanceDomain example_env "cpu" "" ""
       (@NewInstanceDomain example_env "disk" "disks" ""
          (make_instanceDomains declared)).2).2 = Some 0%nat.
Proof.
  eapply (@NewInstanceDomain_frame example_env "disk" "cpu" "" ""
            (@NewInstanceDomain example_env "disk" "disks" ""
               (make_instanceDomains declared)).2 0%nat).
  - vm_compute. reflexivity.
  - vm_compute. reflexivity.
Defined.

(** X22: after an instance has been added to a registered domain,
    [NewInstanceDomain] for the domain's name still returns that domain,
    which now holds the instance under the hash of its name, with that
    name and a reference back to the domain. *)
Theorem NewInstanceDomain_sees_instances `{Env} (name iname sd ld : string)
    (st st' : state) (a : nat) :
  registered name st = Some a →
  AddInstance (Some a) iname st = (Ret None, st') →
  NewInstanceDomain name sd ld st' = (Ret (Some a), st') ∧
  ∃ d, heap st' !! a = Some d ∧
       instances d !! getHash iname = Some (newInstance (getHash iname) iname a).
Proof.
  intros Hr Hadd.
  destruct (heap st !! a) as [d|] eqn:Hd;
    [|by rewrite AddInstance_dangling in Hadd].
  destruct (instances d !! getHash iname) as [ins|] eqn:Hi.
  { by rewrite (AddInstance_duplicate a iname st d ins) in Hadd. }
  rewrite (AddInstance_new a iname st d) in Hadd by done.
  injection Hadd as <-. split.
  - by apply NewInstanceDomain_registered.
  - cbn. eexists. split.
    + apply list_lookup_insert_eq. by apply lookup_lt_Some in Hd.
    + cbn. apply lookup_insert_eq.
Qed.

Lemma NewInstanceDomain_sees_instances_witness :
  ∃ st', @AddInstance example_env (Some 0%nat) "sda"
           (@NewInstanceDomain example_env "disk" "" ""
              (make_instanceDomains declared)).2 = (Ret None, st') ∧
         @NewInstanceDomain example_env "disk" "again" "" st' = (Ret (Some 0%nat), st').
Proof.
  assert (Hadd : ∃ st', @AddInstance example_env (Some 0%nat) "sda"
                   (@NewInstanceDomain example_env "disk" "" ""
                      (make_instanceDomains declared)).2 = (Ret None, st'))
    by (eexists; vm_compute; reflexivity).
  destruct Hadd as [st' Hadd]. exists st'. split; [exact Hadd|].
  eapply (@NewInstanceDomain_sees_instances example_env "disk" "sda" "again" ""
            (@NewInstanceDomain example_env "disk" "" ""
               (make_instanceDomains declared)).2 st' 0%nat).
  - vm_compute. reflexivity.
  - exact Hadd.
Defined.

(** X23: the registry is keyed by the hash alone: when two different names
    have the same hash, [NewInstanceDomain] for the second returns the
    domain created for the first, which keeps the first name and its help
    texts, and no second domain is allocated. *)
Theorem NewInstanceDomain_collision `{Env} (name name' sd ld sd' ld' : string)
    (st : state) (m : gmap Z nat) :
  getHash name' = getHash name →
  instanceDomains st = Some m → m !! getHash name = None →
  NewInstanceDomain name' sd' ld' (NewInstanceDomain name sd ld st).2
    = (Ret (Some (length (heap st))), (NewInstanceDomain name sd ld st).2) ∧
  ∃ d, heap (NewInstanceDomain name sd ld st).2 !! length (heap st) = Some d ∧
       InstanceDomains.name d = name ∧ shortHelpText d = sd ∧ longHelpText d = ld ∧
       length (heap (NewInstanceDomain name sd ld st).2) = S (length (heap st)).
Proof.
  intros Hh Hst Hm. rewrite (NewInstanceDomain_fresh _ sd ld _ m) by done. cbn. split.
  - apply (NewInstanceDomain_same_hash name name'); [done|].
    unfold registered. cbn. by rewrite lookup_insert_eq.
  - eexists. split; [by apply list_lookup_middle|]. cbn. repeat split.
    rewrite length_app. cbn. lia.
Qed.

Lemma NewInstanceDomain_collision_witness :
  @NewInstanceDomain colliding_env "cpu" "" ""
    (@NewInstanceDomain colliding_env "disk" "" "" (make_instanceDomains declared)).2
  = (Ret (Some 0%nat),
     (@NewInstanceDomain colliding_env "disk" "" "" (make_instanceDomains declared)).2).
Proof.
  apply (@NewInstanceDomain_collision colliding_env "disk" "cpu" "" "" "" ""
           (make_instanceDomains declared) ∅); reflexivity.
Defined.
End RegistryFacts.

(* ===================================================================== *)
(** * More properties: the update closure *)
(* ===================================================================== *)

(** X24: with the closure of [newupdateClosure] as its hook, a [Set] of a
    new string zero-fills the string block before it writes; so when the
    write fails, [Set] returns the writer's error and the stored value is
    the old one, but the region has already been zero-filled.  For a value
    that is not a string the region is touched by the write alone. *)
Theorem Set_through_update_closure `{Env} {W : Type} `{!Writer W}
    (s : store W (PCPSingletonMetric W)) (v : value) (offset : Z) :
  IsCompatible (sm_t (obj s)) v = true →
  iface_eqb (resolve (sm_t (obj s)) v) (sm_val (obj s)) = false →
  sm_update (obj s) = Some (newupdateClosure offset) →
  (∀ str, resolve (sm_t (obj s)) v = VString str →
     (PCPSingletonMetric_Set v s).1
       = Ret (WriteVal (VString str) offset
                (MustWrite (replicate (Z.to_nat StringLength) 0) offset (region s))).1.2 ∧
     region (PCPSingletonMetric_Set v s).2
       = (WriteVal (VString str) offset
            (MustWrite (replicate (Z.to_nat StringLength) 0) offset (region s))).2) ∧
  ((∀ str, resolve (sm_t (obj s)) v ≠ VString str) →
     (PCPSingletonMetric_Set v s).1
       = Ret (WriteVal (resolve (sm_t (obj s)) v) offset (region s)).1.2 ∧
     region (PCPSingletonMetric_Set v s).2
       = (WriteVal (resolve (sm_t (obj s)) v) offset (region s)).2) ∧
  ((PCPSingletonMetric_Set v s).1 ≠ Ret None →
     sm_val (obj (PCPSingletonMetric_Set v s).2) = sm_val (obj s)).
Proof.
  intros Hc Heq Hu. rewrite (Set_hook s v (newupdateClosure offset)) by done.
  cbn zeta. unfold newupdateClosure. split; [|split].
  - intros str ->.
    destruct (WriteVal _ _ _) as [[k [e|]] w]; done.
  - intros Hns.
    destruct (resolve (sm_t (obj s)) v) as [| | | | | | | |str| |]; try by destruct (Hns str).
    all: destruct (WriteVal _ _ _) as [[k [e|]] w]; done.
  - destruct (resolve (sm_t (obj s)) v);
      destruct (WriteVal _ _ _) as [[k [e|]] w]; done.
Qed.

Lemma Set_through_update_closure_witness :
  PCPSingletonMetric_Set (VString "new")
    (init_store {| sm_desc := example_desc StringType; sm_val := VString "old";
                   sm_update := Some (@newupdateClosure (list string) example_env
                                        example_writer 64) |} [])
  = (Ret (Some (WriterError "string too long")),
     {| obj := {| sm_desc := example_desc StringType; sm_val := VString "old";
                  sm_update := Some (@newupdateClosure (list string) example_env
                                       example_writer 64) |};
        region := ["zero-fill"%string];
        hook_log := [(VString "new", Some (WriterError "string too long"))] |}).
Proof.
  destruct (@Set_through_update_closure example_env (list string) example_writer
              (init_store {| sm_desc := example_desc StringType;
                             sm_val := VString "old";
                             sm_update := Some (@newupdateClosure (list string)
                                                  example_env example_writer 64) |} [])
              (VString "new") 64) as (Hstr & _ & Hkeep).
  - reflexivity.
  - reflexivity.
  - reflexivity.
  - destruct (Hstr "new"%string eq_refl) as [Hr Hw].
    reflexivity.
Defined.
